(** * Enhanced IP geolocation service: a shallow embedding

    This development models [src/enhanced-ip-geolocation.js] (class
    [EnhancedIPGeolocation]) and states the properties of its key
    validation, its provider fan-out, its aggregator, its confidence scorer
    and its TTL cache.

    Conventions of the embedding:
    - a JavaScript string is a [string]; the regular expressions of the source
      only contain ASCII classes, so a character outside ASCII never matches;
    - a JavaScript number that the source computes with (latitude, longitude,
      confidence) is a rational [Q]: binary64 rounding is idealised as exact
      arithmetic, and a missing, [null], [undefined] or [NaN] field is [None];
    - [Date.now()] is a [Z] (milliseconds);
    - a plain object used as an ordered dictionary is an association list in
      property-creation order ([jsobj]), the [Map] of the cache is a [gmap];
    - a call that can throw returns a [completion]. *)

From Stdlib Require Import ZArith QArith Qminmax Ascii String List Bool Lia Permutation.
From stdpp Require Import gmap strings list pretty.

Local Open Scope string_scope.
Local Open Scope list_scope.

(** ** Regular expressions as the source writes them *)

Module Regex.

(** The fragment of the regular-expression syntax that [isValidIP] uses:
    character classes, concatenation and alternation; [x?], [x{n}] and
    [x{lo,hi}] are derived forms. *)
Inductive regex : Type :=
| Eps
| Class (ranges : list (ascii * ascii))
| Seq (r1 r2 : regex)
| Alt (r1 r2 : regex).

(** [x?] *)
Definition Opt (r : regex) : regex := Alt r Eps.

(** [x{n}] *)
Fixpoint Times (n : nat) (r : regex) : regex :=
  match n with
  | O => Eps
  | S n' => Seq r (Times n' r)
  end.

(** at most [n] copies of [x] *)
Fixpoint UpTo (n : nat) (r : regex) : regex :=
  match n with
  | O => Eps
  | S n' => Opt (Seq r (UpTo n' r))
  end.

(** [x{lo,hi}] *)
Definition Between (lo hi : nat) (r : regex) : regex :=
  Seq (Times lo r) (UpTo (hi - lo) r).

Definition in_range (c : ascii) (rg : ascii * ascii) : bool :=
  (nat_of_ascii (fst rg) <=? nat_of_ascii c)%nat
  && (nat_of_ascii c <=? nat_of_ascii (snd rg))%nat.

Definition in_class (ranges : list (ascii * ascii)) (c : ascii) : bool :=
  existsb (in_range c) ranges.

(** A backtracking matcher in continuation-passing style: [matchk r s k]
    tries every way for [r] to consume a prefix of [s], the continuation [k]
    deciding the rest. *)
Fixpoint matchk (r : regex) (s : list ascii) (k : list ascii -> bool) : bool :=
  match r with
  | Eps => k s
  | Class ranges =>
      match s with
      | c :: s' => in_class ranges c && k s'
      | [] => false
      end
  | Seq r1 r2 => matchk r1 s (fun s' => matchk r2 s' k)
  | Alt r1 r2 => matchk r1 s k || matchk r2 s k
  end.

Definition at_end (s : list ascii) : bool :=
  match s with
  | [] => true
  | _ :: _ => false
  end.

(** [/^r$/.test(s)], without the [m] flag: the whole string has to match. *)
Definition test (r : regex) (s : string) : bool :=
  matchk r (list_ascii_of_string s) at_end.

(** The language of a regular expression. *)
Inductive Matches : regex -> list ascii -> Prop :=
| MEps : Matches Eps []
| MClass ranges c : in_class ranges c = true -> Matches (Class ranges) [c]
| MSeq r1 r2 s1 s2 : Matches r1 s1 -> Matches r2 s2 -> Matches (Seq r1 r2) (s1 ++ s2)
| MAltL r1 r2 s : Matches r1 s -> Matches (Alt r1 r2) s
| MAltR r1 r2 s : Matches r2 s -> Matches (Alt r1 r2) s.

(** The characters a match of [r] can contain. *)
Fixpoint alphabet (r : regex) (c : ascii) : bool :=
  match r with
  | Eps => false
  | Class ranges => in_class ranges c
  | Seq r1 r2 | Alt r1 r2 => alphabet r1 c || alphabet r2 c
  end.

(** Bounds on the length of a match. *)
Fixpoint min_len (r : regex) : nat :=
  match r with
  | Eps => 0
  | Class _ => 1
  | Seq r1 r2 => min_len r1 + min_len r2
  | Alt r1 r2 => Nat.min (min_len r1) (min_len r2)
  end.

Fixpoint max_len (r : regex) : nat :=
  match r with
  | Eps => 0
  | Class _ => 1
  | Seq r1 r2 => max_len r1 + max_len r2
  | Alt r1 r2 => Nat.max (max_len r1) (max_len r2)
  end.

End Regex.

Import Regex.

(** ** Key validation *)

Definition lit (c : ascii) : regex := Class [(c, c)].
Definition digit : regex := Class [("0", "9")]%char.
Definition hexdigit : regex := Class [("0", "9"); ("a", "f"); ("A", "F")]%char.

(** [(?:25[0-5]|2[0-4][0-9]|[01]?[0-9][0-9]?)] *)
Definition octet : regex :=
  Alt (Seq (lit "2") (Seq (lit "5") (Class [("0", "5")]%char)))
      (Alt (Seq (lit "2") (Seq (Class [("0", "4")]%char) digit))
           (Seq (Opt (Class [("0", "0"); ("1", "1")]%char)) (Seq digit (Opt digit)))).

(** [/^(?:(?:25[0-5]|2[0-4][0-9]|[01]?[0-9][0-9]?)\.){3}(?:25[0-5]|2[0-4][0-9]|[01]?[0-9][0-9]?)$/] *)
Definition ipv4Regex : regex :=
  Seq (Times 3 (Seq octet (lit "."))) octet.

(** [[0-9a-fA-F]{1,4}] *)
Definition hexgroup : regex := Between 1 4 hexdigit.

(** [/^(?:[0-9a-fA-F]{1,4}:){7}[0-9a-fA-F]{1,4}$/] *)
Definition ipv6Regex : regex :=
  Seq (Times 7 (Seq hexgroup (lit ":"))) hexgroup.

Definition isValidIP (ip : string) : bool :=
  test ipv4Regex ip || test ipv6Regex ip.

(** ** Plain objects as ordered dictionaries *)

Module JsObject.

(** The decimal digits of a property name, most significant first. *)
Fixpoint parse_digits (acc : N) (s : string) : option N :=
  match s with
  | EmptyString => Some acc
  | String c s' =>
      let n := N_of_ascii c in
      if (48 <=? n)%N && (n <=? 57)%N
      then parse_digits (10 * acc + (n - 48))%N s'
      else None
  end.

(** A property name is an array index when it is the canonical decimal
    writing of an integer below 2^32 - 1. *)
Definition array_index (k : string) : option N :=
  match k with
  | EmptyString => None
  | String "0"%char EmptyString => Some 0%N
  | String "0"%char _ => None
  | _ =>
      match parse_digits 0 k with
      | Some n => if (n <? 4294967295)%N then Some n else None
      | None => None
      end
  end.

Section Obj.
Context {A : Type}.

(** Own properties, in creation order. *)
Definition jsobj : Type := list (string * A).

(** [o[k]] *)
Fixpoint obj_get (o : jsobj) (k : string) : option A :=
  match o with
  | [] => None
  | (k', v) :: o' => if String.eqb k k' then Some v else obj_get o' k
  end.

(** [o[k] = v]: an existing property keeps its place, a new one goes last. *)
Fixpoint obj_set (k : string) (v : A) (o : jsobj) : jsobj :=
  match o with
  | [] => [(k, v)]
  | (k', v') :: o' =>
      if String.eqb k k' then (k, v) :: o' else (k', v') :: obj_set k v o'
  end.

Fixpoint insert_index (e : N * (string * A)) (l : list (N * (string * A)))
  : list (N * (string * A)) :=
  match l with
  | [] => [e]
  | e' :: l' =>
      if (fst e <? fst e')%N then e :: e' :: l' else e' :: insert_index e l'
  end.

Fixpoint index_entries (o : jsobj) : list (N * (string * A)) :=
  match o with
  | [] => []
  | (k, v) :: o' =>
      match array_index k with
      | Some n => insert_index (n, (k, v)) (index_entries o')
      | None => index_entries o'
      end
  end.

Fixpoint named_entries (o : jsobj) : jsobj :=
  match o with
  | [] => []
  | (k, v) :: o' =>
      match array_index k with
      | Some _ => named_entries o'
      | None => (k, v) :: named_entries o'
      end
  end.

(** The enumeration order of own properties: array indices in ascending
    numeric order, then the other names in creation order. *)
Definition Object_entries (o : jsobj) : jsobj :=
  map snd (index_entries o) ++ named_entries o.

Definition Object_keys (o : jsobj) : list string := map fst (Object_entries o).
Definition Object_values (o : jsobj) : list A := map snd (Object_entries o).
End Obj.

Arguments jsobj A : clear implicits.

End JsObject.

Import JsObject.

(** ** Data model *)

Module ServiceInfo.
Record t : Type := mk {
  port : Z;
  protocol : option string;
  service : option string;
  version : option string;
  banner : option string;
  source : option string
}.
End ServiceInfo.

(** The fields of a provider record that the aggregation reads. *)
Module Provider.
Record t : Type := mk {
  country : option string;
  region : option string;
  city : option string;
  latitude : option Q;
  longitude : option Q;
  timezone : option string;
  isp : option string;
  org : option string;
  asn : option string;
  isProxy : bool;
  isHosting : bool;
  vulnerabilities : list string;
  services : option (list ServiceInfo.t);
  ports : option (list Z)
}.

(** A record with none of these fields, as [fetchThreatIntelligence]
    returns it. *)
Definition blank : t :=
  mk None None None None None None None None None false false [] None None.
End Provider.

Module Location.
Record t : Type := mk {
  country : option string;
  region : option string;
  city : option string;
  latitude : option Q;
  longitude : option Q;
  timezone : option string
}.
End Location.

Module Network.
Record t : Type := mk {
  isp : option string;
  org : option string;
  asn : option string
}.
End Network.

(** The object [aggregateProviderData] returns; its [organization] and
    [security] members stay the empty object and are left out. *)
Module Aggregated.
Record t : Type := mk {
  location : Location.t;
  network : Network.t
}.
End Aggregated.

(** The object [calculateConfidenceScores] returns: [{}] or the four scores. *)
Module Confidence.
Inductive t : Type :=
| empty
| scores (overall location network security : Q).

(** [confidence.overall]; [None] is [undefined]. *)
Definition overall (c : t) : option Q :=
  match c with empty => None | scores o _ _ _ => Some o end.
Definition location (c : t) : option Q :=
  match c with empty => None | scores _ l _ _ => Some l end.
Definition network (c : t) : option Q :=
  match c with empty => None | scores _ _ n _ => Some n end.
Definition security (c : t) : option Q :=
  match c with empty => None | scores _ _ _ s => Some s end.
End Confidence.

Module Threat.
Record t : Type := mk {
  type : string;
  severity : string;
  description : string;
  details : option (list string);
  source : string
}.
End Threat.

Module ProviderError.
Record t : Type := mk {
  provider : string;
  error : string
}.
End ProviderError.

(** The envelope [getComprehensiveIPInfo] builds; [timestamp] is the clock
    reading that [toISOString] writes out. *)
Module Results.
Record t : Type := mk {
  ip : string;
  timestamp : Z;
  providers : jsobj Provider.t;
  aggregated : Aggregated.t;
  confidence : Confidence.t;
  threats : list Threat.t;
  services : list ServiceInfo.t;
  errors : list ProviderError.t
}.
End Results.

(** ** Aggregation helpers *)

Definition tally_step (counts : jsobj nat) (item : string) : jsobj nat :=
  obj_set item (default 0%nat (obj_get counts item) + 1)%nat counts.

(** [array.forEach(item => counts[item] = (counts[item] || 0) + 1)] *)
Definition tally (array : list string) : jsobj nat :=
  fold_left tally_step array [].

Definition count_of (counts : jsobj nat) (k : string) : nat :=
  default 0%nat (obj_get counts k).

(** [(a, b) => counts[a] > counts[b] ? a : b] *)
Definition pick (counts : jsobj nat) (a b : string) : string :=
  if (count_of counts b <? count_of counts a)%nat then a else b.

(** [keys.reduce(f)] without an initial value; it throws on the empty array,
    which the keys of a non-empty tally never are. *)
Definition reduce1 (f : string -> string -> string) (keys : list string)
  : option string :=
  match keys with
  | [] => None
  | k :: ks => Some (fold_left f ks k)
  end.

(** [counts] is modelled by its own properties: the items are taken not to
    name a member of [Object.prototype]. *)
Definition getMostCommon (array : list string) : option string :=
  match array with
  | [] => None
  | _ :: _ =>
      let counts := tally array in
      reduce1 (pick counts) (Object_keys counts)
  end.

Definition getAverage (array : list Q) : option Q :=
  match array with
  | [] => None
  | _ :: _ =>
      let sum := fold_left Qplus array 0%Q in
      Some (sum / inject_Z (Z.of_nat (length array)))%Q
  end.

(** ** The aggregator *)

Module Values.
Record t : Type := mk {
  countries : list string;
  regions : list string;
  cities : list string;
  latitudes : list Q;
  longitudes : list Q;
  timezones : list string;
  isps : list string;
  orgs : list string;
  asns : list string
}.
Definition empty : t := mk [] [] [] [] [] [] [] [] [].
End Values.

(** [if (v) list.push(v)] on a string field: [""] is falsy. *)
Definition push_string (l : list string) (v : option string) : list string :=
  match v with
  | Some s => if String.eqb s "" then l else l ++ [s]
  | None => l
  end.

(** [if (v) list.push(v)] on a number field: [0] is falsy. *)
Definition push_number (l : list Q) (v : option Q) : list Q :=
  match v with
  | Some q => if Qeq_bool q 0 then l else l ++ [q]
  | None => l
  end.

Definition collect (values : Values.t) (provider : Provider.t) : Values.t :=
  Values.mk
    (push_string (Values.countries values) (Provider.country provider))
    (push_string (Values.regions values) (Provider.region provider))
    (push_string (Values.cities values) (Provider.city provider))
    (push_number (Values.latitudes values) (Provider.latitude provider))
    (push_number (Values.longitudes values) (Provider.longitude provider))
    (push_string (Values.timezones values) (Provider.timezone provider))
    (push_string (Values.isps values) (Provider.isp provider))
    (push_string (Values.orgs values) (Provider.org provider))
    (push_string (Values.asns values) (Provider.asn provider)).

Definition aggregateProviderData (providers : jsobj Provider.t) : Aggregated.t :=
  let values := fold_left collect (Object_values providers) Values.empty in
  Aggregated.mk
    (Location.mk
       (getMostCommon (Values.countries values))
       (getMostCommon (Values.regions values))
       (getMostCommon (Values.cities values))
       (getAverage (Values.latitudes values))
       (getAverage (Values.longitudes values))
       (getMostCommon (Values.timezones values)))
    (Network.mk
       (getMostCommon (Values.isps values))
       (getMostCommon (Values.orgs values))
       (getMostCommon (Values.asns values))).

(** ** The confidence scorer *)

Definition calculateConfidenceScores (providers : jsobj Provider.t) : Confidence.t :=
  let providerCount := length (Object_keys providers) in
  if (providerCount =? 0)%nat then Confidence.empty
  else
    let overall := Qmin (inject_Z (Z.of_nat providerCount) * 0.25) 1.0 in
    Confidence.scores overall overall overall (overall * 0.8)%Q.

(** ** Derived threat and service lists *)

Definition threats_of (provider : Provider.t) : list Threat.t :=
  (if Provider.isProxy provider
   then [Threat.mk "proxy" "medium" "IP appears to be a proxy server" None
           "provider_detection"]
   else [])
  ++ (if Provider.isHosting provider
      then [Threat.mk "hosting" "low" "IP belongs to a hosting provider" None
              "provider_detection"]
      else [])
  ++ (match Provider.vulnerabilities provider with
      | [] => []
      | vulns =>
          [Threat.mk "vulnerabilities" "high"
             (pretty (length vulns) +:+ " known vulnerabilities detected")
             (Some vulns) "shodan"]
      end).

Definition analyzeThreatData (providers : jsobj Provider.t) : list Threat.t :=
  concat (map threats_of (Object_values providers)).

Definition port_scan (port : Z) : ServiceInfo.t :=
  ServiceInfo.mk port (Some "unknown") (Some "unknown") None None (Some "port_scan").

Definition services_of (provider : Provider.t) : list ServiceInfo.t :=
  default [] (Provider.services provider)
  ++ map port_scan (default [] (Provider.ports provider)).

Definition extractServiceInfo (providers : jsobj Provider.t) : list ServiceInfo.t :=
  concat (map services_of (Object_values providers)).

(** ** The service object: cache and request history *)

Module CacheEntry.
Record t : Type := mk {
  timestamp : Z;
  data : Results.t
}.
End CacheEntry.

Module HistoryEntry.
Record t : Type := mk {
  ip : string;
  timestamp : Z;
  providers : list string;
  success : bool
}.
End HistoryEntry.

Record EnhancedIPGeolocation : Type := mkService {
  cache : gmap string CacheEntry.t;
  requestHistory : list HistoryEntry.t
}.

(** [new EnhancedIPGeolocation()] *)
Definition constructor : EnhancedIPGeolocation := mkService ∅ [].

(** 24 hours, in milliseconds. *)
Definition cacheExpiry : Z := 24 * 60 * 60 * 1000.
Definition maxHistorySize : nat := 100.

Definition getFromCache (this : EnhancedIPGeolocation) (now : Z) (ip : string)
  : option Results.t :=
  match cache this !! ip with
  | Some cached =>
      if (now - CacheEntry.timestamp cached <? cacheExpiry)%Z
      then Some (CacheEntry.data cached)
      else None
  | None => None
  end.

Definition cacheResults (this : EnhancedIPGeolocation) (now : Z) (ip : string)
    (data : Results.t) : EnhancedIPGeolocation :=
  mkService (<[ip := CacheEntry.mk now data]> (cache this)) (requestHistory this).

Definition addToHistory (this : EnhancedIPGeolocation) (now : Z) (ip : string)
    (results : Results.t) : EnhancedIPGeolocation :=
  let history :=
    HistoryEntry.mk ip now (Object_keys (Results.providers results)) true
    :: requestHistory this in
  mkService (cache this)
    (if (maxHistorySize <? length history)%nat
     then firstn maxHistorySize history
     else history).

(** ** Provider adapters and the fan-out *)

Module Options.
(** Each option is unset ([None]) or a boolean. *)
Record t : Type := mk {
  forceRefresh : option bool;
  includeBasic : option bool;
  includeDetailed : option bool;
  includeThreatIntel : option bool
}.
Definition unset : t := mk None None None None.
End Options.

(** [if (v)] on an option of the call. *)
Definition truthy (v : option bool) : bool :=
  match v with
  | Some true => true
  | _ => false
  end.

(** [v !== false] *)
Definition not_false (v : option bool) : bool :=
  match v with
  | Some false => false
  | _ => true
  end.

(** The adapter methods the class defines. *)
Inductive Adapter : Type :=
| IPAPI
| IPInfo
| IPGeolocation
| Shodan
| ThreatIntelligence.

(** An entry of [Promise.allSettled]'s result: the value
    [{provider, data}] of a fulfilled promise, or the message of the error a
    rejected one carries. *)
Inductive Settled : Type :=
| fulfilled (provider : string) (data : Provider.t)
| rejected (message : string).

(** What the outside of the program contributes to one call: the readings of
    the clock ([Date.now()] in [getFromCache], [new Date()] for the envelope,
    [Date.now()] in [cacheResults] and in [addToHistory]) and, for each
    adapter that goes to the network, either the record it normalises the
    response to or the message of the error it throws (a token that is not
    configured, a request that fails, a status that is not ok, a body that
    does not parse). *)
Record World : Type := mkWorld {
  now_lookup : Z;
  now_created : Z;
  now_store : Z;
  now_history : Z;
  response : Adapter -> string -> Provider.t + string
}.

Definition settle (tag : string) (r : Provider.t + string) : Settled :=
  match r with
  | inl data => fulfilled tag data
  | inr message => rejected message
  end.

Definition fetchFromIPAPI (w : World) (ip : string) : Settled :=
  settle "ipapi" (response w IPAPI ip).
Definition fetchFromIPInfo (w : World) (ip : string) : Settled :=
  settle "ipinfo" (response w IPInfo ip).
Definition fetchFromIPGeolocation (w : World) (ip : string) : Settled :=
  settle "ipgeolocation" (response w IPGeolocation ip).
Definition fetchFromShodan (w : World) (ip : string) : Settled :=
  settle "shodan" (response w Shodan ip).
(** The placeholder never fails and reads nothing. *)
Definition fetchThreatIntelligence (ip : string) : Settled :=
  fulfilled "threat_intel" Provider.blank.

Definition invoke (w : World) (a : Adapter) (ip : string) : Settled :=
  match a with
  | IPAPI => fetchFromIPAPI w ip
  | IPInfo => fetchFromIPInfo w ip
  | IPGeolocation => fetchFromIPGeolocation w ip
  | Shodan => fetchFromShodan w ip
  | ThreatIntelligence => fetchThreatIntelligence ip
  end.

(** Why a call throws: the error is
    [new Error(`Failed to get IP information: ${cause.message}`)]. *)
Inductive Cause : Type :=
| InvalidIPAddressFormat
| NotAFunction (method : string).

Inductive completion (A : Type) : Type :=
| Return (a : A)
| Throw (cause : Cause).
Arguments Return {A} a.
Arguments Throw {A} cause.

(** A method call of the dispatch code: [this[m](ip)] on a method the class
    defines, or on a name it does not define. *)
Inductive Call : Type :=
| call (a : Adapter)
| call_undefined (method : string).

(** The calls lines 86-99 make, in order; the class has no
    [fetchFromMaxMind]. *)
Definition requested (options : Options.t) : list Call :=
  (if not_false (Options.includeBasic options)
   then [call IPAPI; call IPInfo] else [])
  ++ (if truthy (Options.includeDetailed options)
      then [call IPGeolocation; call_undefined "fetchFromMaxMind"] else [])
  ++ (if truthy (Options.includeThreatIntel options)
      then [call Shodan; call ThreatIntelligence] else []).

(** Running the calls: the adapters invoked so far, and either the settled
    promises or the [TypeError] of a call on [undefined]. *)
Fixpoint launch (w : World) (ip : string) (calls : list Call)
  : list Adapter * completion (list Settled) :=
  match calls with
  | [] => ([], Return [])
  | call a :: rest =>
      let '(invoked, c) := launch w ip rest in
      (a :: invoked,
       match c with
       | Return promises => Return (invoke w a ip :: promises)
       | Throw e => Throw e
       end)
  | call_undefined method :: _ => ([], Throw (NotAFunction method))
  end.

(** The body of [providerResults.forEach((result, index) => ...)]; the value
    of a fulfilled promise is the object an adapter returns, which is
    truthy. *)
Definition process (acc : jsobj Provider.t * list ProviderError.t)
    (index : nat) (result : Settled) : jsobj Provider.t * list ProviderError.t :=
  match result with
  | fulfilled providerName data => (obj_set providerName data (fst acc), snd acc)
  | rejected message =>
      (fst acc, snd acc ++ [ProviderError.mk ("provider_" +:+ pretty index) message])
  end.

Fixpoint forEach_from (index : nat) (providerResults : list Settled)
    (acc : jsobj Provider.t * list ProviderError.t)
  : jsobj Provider.t * list ProviderError.t :=
  match providerResults with
  | [] => acc
  | result :: rest => forEach_from (S index) rest (process acc index result)
  end.

(** One call of [getComprehensiveIPInfo]: its completion, the service object
    afterwards, and the adapter methods it invoked. *)
Record Run : Type := mkRun {
  result : completion Results.t;
  after : EnhancedIPGeolocation;
  invoked : list Adapter
}.

Definition getComprehensiveIPInfo (w : World) (this : EnhancedIPGeolocation)
    (ip : string) (options : Options.t) : Run :=
  if negb (isValidIP ip) then mkRun (Throw InvalidIPAddressFormat) this []
  else
    match getFromCache this (now_lookup w) ip, truthy (Options.forceRefresh options) with
    | Some cached, false => mkRun (Return cached) this []
    | _, _ =>
        let '(invoked, launched) := launch w ip (requested options) in
        match launched with
        | Throw e => mkRun (Throw e) this invoked
        | Return providerResults =>
            let '(providers, errors) := forEach_from 0 providerResults ([], []) in
            let results :=
              Results.mk ip (now_created w) providers
                (aggregateProviderData providers)
                (calculateConfidenceScores providers)
                (analyzeThreatData providers)
                (extractServiceInfo providers)
                errors in
            let this1 := cacheResults this (now_store w) ip results in
            let this2 := addToHistory this1 (now_history w) ip results in
            mkRun (Return results) this2 invoked
        end
    end.

(** * The specification's side *)

(** ** The shapes of a key *)

Definition is_digit (c : ascii) : bool :=
  let n := nat_of_ascii c in (48 <=? n)%nat && (n <=? 57)%nat.

Definition is_hex (c : ascii) : bool :=
  let n := nat_of_ascii c in
  is_digit c || ((97 <=? n)%nat && (n <=? 102)%nat) || ((65 <=? n)%nat && (n <=? 70)%nat).

Definition all_chars (P : ascii -> bool) (s : string) : bool :=
  forallb P (list_ascii_of_string s).

(** One to three decimal digits whose value is at most 255. *)
Definition octet_text (o : string) : bool :=
  (1 <=? String.length o)%nat && (String.length o <=? 3)%nat
  && all_chars is_digit o
  && match parse_digits 0 o with
     | Some n => (n <=? 255)%N
     | None => false
     end.

(** One to four hexadecimal digits. *)
Definition hex_group (g : string) : bool :=
  (1 <=? String.length g)%nat && (String.length g <=? 4)%nat && all_chars is_hex g.

(** Four octets separated by dots. *)
Definition dotted_quad (ip : string) : Prop :=
  exists os : list string,
    length os = 4%nat /\ Forall (fun o => octet_text o = true) os
    /\ ip = String.concat "." os.

(** Eight groups of hexadecimal digits separated by colons. *)
Definition eight_groups (ip : string) : Prop :=
  exists gs : list string,
    length gs = 8%nat /\ Forall (fun g => hex_group g = true) gs
    /\ ip = String.concat ":" gs.

(** The usual writing of the IPv4 address [a.b.c.d]. *)
Definition dotted (a b c d : nat) : string :=
  pretty a +:+ "." +:+ pretty b +:+ "." +:+ pretty c +:+ "." +:+ pretty d.

(** An IPv6 literal that uses the [::] compression. *)
Definition compressed (ip : string) : Prop :=
  exists pre post : string, ip = pre +:+ "::" +:+ post.

(** Separated lists of characters, for the proofs about the validation. *)
Fixpoint join (sep : ascii) (parts : list (list ascii)) : list ascii :=
  match parts with
  | [] => []
  | [p] => p
  | p :: rest => p ++ sep :: join sep rest
  end.

Fixpoint has_double_colon (s : list ascii) : bool :=
  match s with
  | [] => false
  | c :: t =>
      match t with
      | c' :: _ => (Ascii.eqb c ":" && Ascii.eqb c' ":") || has_double_colon t
      | [] => false
      end
  end.

Definition colon_free (s : list ascii) : Prop := Forall (fun c => c <> ":"%char) s.

Definition head_not_colon (s : list ascii) : Prop :=
  match s with
  | c :: _ => c <> ":"%char
  | [] => True
  end.

Definition digits10 : list ascii := list_ascii_of_string "0123456789".

(** [P] holds of every string of one to three decimal digits. *)
Definition check3 (P : list ascii -> bool) : bool :=
  forallb (fun a =>
    P [a] && forallb (fun b =>
      P [a; b] && forallb (fun c => P [a; b; c]) digits10) digits10) digits10.

Definition all_ascii : list ascii := map ascii_of_nat (seq 0 256).

(** ** The aggregation rules *)






(** The values of a string field that the records supply: neither missing
    nor empty. *)
Definition supplied_strings (field : Provider.t -> option string)
    (records : list Provider.t) : list string :=
  flat_map (fun p =>
    match field p with
    | Some s => if String.eqb s "" then [] else [s]
    | None => []
    end) records.

(** The values of a number field that the records supply: neither missing
    nor zero. *)
Definition supplied_numbers (field : Provider.t -> option Q)
    (records : list Provider.t) : list Q :=
  flat_map (fun p =>
    match field p with
    | Some q => if Qeq_bool q 0 then [] else [q]
    | None => []
    end) records.

(** The values of a number field that are not null, zero included. *)
Definition non_null_numbers (field : Provider.t -> option Q)
    (records : list Provider.t) : list Q :=
  flat_map (fun p => match field p with Some q => [q] | None => [] end) records.

Fixpoint Qsum (l : list Q) : Q :=
  match l with
  | [] => 0
  | q :: rest => q + Qsum rest
  end.

(** The arithmetic mean of a list of numbers. *)
Definition mean (l : list Q) : Q := Qsum l / inject_Z (Z.of_nat (length l)).

(** The mean of the values a number field supplies, absent when there are
    none. *)
Definition mean_of (values : list Q) : option Q :=
  match values with
  | [] => None
  | _ :: _ => Some (mean values)
  end.

(** Equality of optional numbers, up to the writing of the fraction. *)
Definition same_number (a b : option Q) : Prop :=
  match a, b with
  | Some x, Some y => x == y
  | None, None => True
  | _, _ => False
  end.

(** The aggregate with every field absent. *)
Definition no_fields : Aggregated.t :=
  Aggregated.mk (Location.mk None None None None None None)
                (Network.mk None None None).

(** ** The confidence score *)

(** [min(1.0, 0.25 × providerCount)] *)
Definition capped_quarter (providerCount : nat) : Q :=
  Qmin 1 (0.25 * inject_Z (Z.of_nat providerCount)).

(** ** The fan-out *)

(** The [provider] tag each adapter puts on its record. *)
Definition provider_tag (a : Adapter) : string :=
  match a with
  | IPAPI => "ipapi"
  | IPInfo => "ipinfo"
  | IPGeolocation => "ipgeolocation"
  | Shodan => "shodan"
  | ThreatIntelligence => "threat_intel"
  end.

(** The adapters a call without [includeDetailed] dispatches. *)
Definition dispatched (options : Options.t) : list Adapter :=
  (if not_false (Options.includeBasic options) then [IPAPI; IPInfo] else [])
  ++ (if truthy (Options.includeThreatIntel options)
      then [Shodan; ThreatIntelligence] else []).

(** The records of the promises that fulfilled. *)
Definition fulfilled_records (settled : list Settled) : jsobj Provider.t :=
  flat_map (fun r =>
    match r with
    | fulfilled tag data => [(tag, data)]
    | rejected _ => []
    end) settled.

(** One error entry for each promise that rejected, named after its
    position. *)
Fixpoint rejected_errors (index : nat) (settled : list Settled)
  : list ProviderError.t :=
  match settled with
  | [] => []
  | fulfilled _ _ :: rest => rejected_errors (S index) rest
  | rejected message :: rest =>
      ProviderError.mk ("provider_" +:+ pretty index) message
      :: rejected_errors (S index) rest
  end.

Definition is_rejected (r : Settled) : bool :=
  match r with
  | rejected _ => true
  | fulfilled _ _ => false
  end.

(** The envelope a call builds from the settled promises. *)
Definition envelope (w : World) (ip : string) (settled : list Settled) : Results.t :=
  let providers := fulfilled_records settled in
  Results.mk ip (now_created w) providers
    (aggregateProviderData providers) (calculateConfidenceScores providers)
    (analyzeThreatData providers) (extractServiceInfo providers)
    (rejected_errors 0 settled).

(** The call is for a valid key and is not answered from the cache. *)
Definition fetch_path (w : World) (this : EnhancedIPGeolocation) (ip : string)
    (options : Options.t) : Prop :=
  isValidIP ip = true
  /\ (getFromCache this (now_lookup w) ip = None
      \/ truthy (Options.forceRefresh options) = true).

(** ** Sample inputs *)

Definition sample_ip : string := "8.8.8.8".

Definition sample_record (city : string) (latitude : Q) : Provider.t :=
  Provider.mk None None (Some city) (Some latitude) None None None None None
    false false [] None None.

(** Every provider answers, at clock reading [t]. *)
Definition world_up (t : Z) : World :=
  mkWorld t t t t (fun a _ =>
    match a with
    | IPAPI => inl (sample_record "A" 0)
    | _ => inl (sample_record "B" 10)
    end).

(** No provider answers. *)
Definition world_down (t : Z) : World :=
  mkWorld t t t t (fun _ _ => inr "Failed to fetch").

(** [{includeBasic: true}] *)
Definition basic_only : Options.t := Options.mk None (Some true) None None.
(** [{includeBasic: true, includeDetailed: true, includeThreatIntel: true}],
    the options [IPBanTester.getIPInfo] passes. *)
Definition detailed : Options.t := Options.mk None (Some true) (Some true) (Some true).
(** [{includeBasic: true, includeThreatIntel: true}] *)
Definition with_threat_intel : Options.t := Options.mk None (Some true) None (Some true).

(** Two records: city A at latitude 0, city B at latitude 10. *)
Definition two_records : jsobj Provider.t :=
  [("ipapi", sample_record "A" 0); ("ipinfo", sample_record "B" 10)].

(** The envelope of a first call with every provider answering. *)
Definition sample_envelope : Results.t :=
  envelope (world_up 0) sample_ip
    (map (fun a => invoke (world_up 0) a sample_ip) (dispatched Options.unset)).

(** * The rest of the service, and its caller *)

(** ** Analytics *)

(** The object [getAnalytics] returns, without the constant [providers]
    table; a [successRate] of [None] is the [NaN] of 0/0. *)
Module Analytics.
Record t : Type := mk {
  cacheSize : nat;
  requestHistory : list HistoryEntry.t;
  totalRequests : nat;
  successRate : option Q
}.
End Analytics.

Definition getAnalytics (this : EnhancedIPGeolocation) : Analytics.t :=
  let history := requestHistory this in
  let succeeded := List.filter HistoryEntry.success history in
  Analytics.mk
    (size (cache this))
    history
    (length history)
    (if (length history =? 0)%nat then None
     else Some (inject_Z (Z.of_nat (length succeeded))
                / inject_Z (Z.of_nat (length history)))%Q).

(** The service objects of a program that constructs one and calls
    [getComprehensiveIPInfo] on it. *)
Inductive reachable : EnhancedIPGeolocation -> Prop :=
| reachable_new : reachable constructor
| reachable_call w this ip options :
    reachable this ->
    reachable (after (getComprehensiveIPInfo w this ip options)).

(** ** What holds of the envelopes and of the history *)

(** The provider names an envelope can hold. *)
Definition known_tags : list string := ["ipapi"; "ipinfo"; "shodan"; "threat_intel"].

(** [e] is an envelope for [ip] whose derived members are computed from its
    provider records and whose records and errors account for at most four
    adapters. *)
Definition consistent (ip : string) (e : Results.t) : Prop :=
  Results.ip e = ip
  /\ Results.aggregated e = aggregateProviderData (Results.providers e)
  /\ Results.confidence e = calculateConfidenceScores (Results.providers e)
  /\ Results.threats e = analyzeThreatData (Results.providers e)
  /\ Results.services e = extractServiceInfo (Results.providers e)
  /\ incl (Object_keys (Results.providers e)) known_tags
  /\ (length (Results.providers e) + length (Results.errors e) <= 4)%nat.

(** Every history entry is a success for a valid and still cached IP. *)
Definition recorded (this : EnhancedIPGeolocation) (h : HistoryEntry.t) : Prop :=
  HistoryEntry.success h = true
  /\ isValidIP (HistoryEntry.ip h) = true
  /\ is_Some (cache this !! HistoryEntry.ip h).

(** What every reachable service object satisfies: a bounded history of
    recorded entries, and a cache of consistent envelopes under valid keys. *)
Definition service_invariant (this : EnhancedIPGeolocation) : Prop :=
  (length (requestHistory this) <= maxHistorySize)%nat
  /\ Forall (recorded this) (requestHistory this)
  /\ (forall key entry,
        cache this !! key = Some entry ->
        isValidIP key = true /\ consistent key (CacheEntry.data entry)).

(** [removelast] on the history: all entries but the oldest. *)
Definition without_oldest (history : list HistoryEntry.t) : list HistoryEntry.t :=
  removelast history.

(** ** Single values *)


(** The characters of an accepted key. *)
Definition key_char (c : ascii) : bool :=
  is_hex c || Ascii.eqb c "." || Ascii.eqb c ":".

(** The label of the error entry for the adapter at position [index]. *)
Definition error_label (index : nat) : string := "provider_" +:+ pretty index.

(** ** Counting threats and services *)

Definition count_records (flag : Provider.t -> bool) (records : list Provider.t) : nat :=
  length (List.filter flag records).

Definition has_vulnerabilities (p : Provider.t) : bool :=
  match Provider.vulnerabilities p with
  | [] => false
  | _ :: _ => true
  end.

Definition listed_services (p : Provider.t) : nat :=
  length (default [] (Provider.services p)) + length (default [] (Provider.ports p)).

Fixpoint total (f : Provider.t -> nat) (records : list Provider.t) : nat :=
  match records with
  | [] => 0
  | p :: rest => f p + total f rest
  end.

(** ** The caller's threat level *)

(** The [switch] of [IPBanTester.calculateThreatLevel]. *)
Definition severity_score (severity : string) : nat :=
  if String.eqb severity "high" then 3
  else if String.eqb severity "medium" then 2
  else 1.

Definition threat_score (threats : list Threat.t) : nat :=
  fold_left (fun score threat => score + severity_score (Threat.severity threat))%nat
    threats 0%nat.

Definition calculateThreatLevel (threats : list Threat.t) : string :=
  match threats with
  | [] => "Low"
  | _ :: _ =>
      let score := threat_score threats in
      if (6 <=? score)%nat then "High"
      else if (3 <=? score)%nat then "Medium"
      else "Low"
  end.

(** The order of the three levels. *)
Definition level_rank (level : string) : nat :=
  if String.eqb level "High" then 2
  else if String.eqb level "Medium" then 1
  else 0.

(** ** The caller: [IPBanTester.getIPInfo] *)

(** What [ipClient.getIPInfo] resolves to; the class is not part of the
    sources, only the fields the caller reads are kept. *)
Module ClientData.
Record t : Type := mk {
  ip : option string;
  country : option string;
  city : option string;
  org : option string;
  asn : option string;
  timezone : option string;
  latitude : option Q;
  longitude : option Q;
  loc : option string
}.
End ClientData.

Module IpInfo.
(** The [_enhanced] member. *)
Record enhanced : Type := mkEnhanced {
  threats : list Threat.t;
  services : list ServiceInfo.t;
  providers : jsobj Provider.t;
  confidence : Confidence.t
}.
(** The display record: its named fields in order ([None] is [undefined]),
    and the [_enhanced] member when it is set. *)
Record t : Type := mk {
  fields : list (string * option string);
  enhanced_data : option enhanced
}.
End IpInfo.

(** [v || 'Unknown'] *)
Definition or_unknown (v : option string) : string :=
  match v with
  | Some s => if String.eqb s "" then "Unknown" else s
  | None => "Unknown"
  end.

(** [if (x)] on a number. *)
Definition truthy_number (v : option Q) : option Q :=
  match v with
  | Some q => if Qeq_bool q 0 then None else Some q
  | None => None
  end.

(** The record of the [catch] branch. *)
Definition unknown_info (ip : string) : IpInfo.t :=
  IpInfo.mk
    [("IP Address", Some ip); ("Country", Some "Unknown"); ("City", Some "Unknown");
     ("ISP", Some "Unknown"); ("Organization", Some "Unknown"); ("ASN", Some "Unknown");
     ("Timezone", Some "Unknown"); ("Latitude", Some "Unknown");
     ("Longitude", Some "Unknown"); ("Coordinates", Some "Unknown")]
    None.

Section Caller.

(** How JavaScript writes numbers out is left open: [`${x.toFixed(4)}°`],
    [`${x}°`], [`${x}`] and [`${Math.round(overall * 100)}%`]. *)
Variable fixed4_degrees : Q -> string.
Variable degrees : Q -> string.
Variable number_text : Q -> string.
Variable percent : option Q -> string.

(** The record built from an envelope. *)
Definition enhanced_info (ip : string) (enhanced : Results.t) : IpInfo.t :=
  let location := Aggregated.location (Results.aggregated enhanced) in
  let network := Aggregated.network (Results.aggregated enhanced) in
  let confidence := Results.confidence enhanced in
  let threats := Results.threats enhanced in
  let services := Results.services enhanced in
  let flags := String.concat ", " (map Threat.type threats) in
  IpInfo.mk
    [("IP Address", Some ip);
     ("Country", Some (or_unknown (Location.country location)));
     ("Region", Some (or_unknown (Location.region location)));
     ("City", Some (or_unknown (Location.city location)));
     ("ISP", Some (or_unknown (Network.isp network)));
     ("Organization", Some (or_unknown (Network.org network)));
     ("ASN", Some (or_unknown (Network.asn network)));
     ("Timezone", Some (or_unknown (Location.timezone location)));
     ("Latitude",
      Some (match truthy_number (Location.latitude location) with
            | Some q => fixed4_degrees q
            | None => "Unknown"
            end));
     ("Longitude",
      Some (match truthy_number (Location.longitude location) with
            | Some q => fixed4_degrees q
            | None => "Unknown"
            end));
     ("Coordinates",
      Some (number_text (default 0%Q (truthy_number (Location.latitude location)))
            +:+ "," +:+
            number_text (default 0%Q (truthy_number (Location.longitude location)))));
     ("Confidence Score", Some (percent (Confidence.overall confidence)));
     ("Data Sources", Some (String.concat ", " (Object_keys (Results.providers enhanced))));
     ("Threat Level",
      Some (match threats with
            | [] => "Low"
            | _ :: _ => calculateThreatLevel threats
            end));
     ("Open Ports",
      Some (match services with
            | [] => "None detected"
            | _ :: _ => pretty (length services) +:+ " detected"
            end));
     ("Security Flags", Some (if String.eqb flags "" then "None" else flags))]
    (Some (IpInfo.mkEnhanced threats services (Results.providers enhanced) confidence)).

(** The record built from the fallback client's answer. *)
Definition client_info (data : ClientData.t) : IpInfo.t :=
  IpInfo.mk
    [("IP Address", ClientData.ip data);
     ("Country", Some (or_unknown (ClientData.country data)));
     ("City", Some (or_unknown (ClientData.city data)));
     ("ISP", Some (or_unknown (ClientData.org data)));
     ("Organization", Some (or_unknown (ClientData.org data)));
     ("ASN", Some (or_unknown (ClientData.asn data)));
     ("Timezone", Some (or_unknown (ClientData.timezone data)));
     ("Latitude",
      Some (match truthy_number (ClientData.latitude data) with
            | Some q => degrees q
            | None => "Unknown"
            end));
     ("Longitude",
      Some (match truthy_number (ClientData.longitude data) with
            | Some q => degrees q
            | None => "Unknown"
            end));
     ("Coordinates", Some (or_unknown (ClientData.loc data)))]
    None.

(** [getIPInfo]: [loaded] tells whether [window.EnhancedIPGeolocation] is
    set, [client] is the outcome of [ipClient.getIPInfo] (its record, or the
    error it rejects with).  The enhanced service is constructed anew on each
    call. *)
Definition getIPInfo (loaded : bool) (w : World)
    (client : string -> ClientData.t + string) (ip : string) : IpInfo.t :=
  if loaded then
    match result (getComprehensiveIPInfo w constructor ip detailed) with
    | Return enhanced => enhanced_info ip enhanced
    | Throw _ => unknown_info ip
    end
  else
    match client ip with
    | inl data => client_info data
    | inr _ => unknown_info ip
    end.

End Caller.

(** ** More sample inputs *)

(** A record flagged as proxy and hosting, with two vulnerabilities and one
    open port. *)
Definition flagged_record : Provider.t :=
  Provider.mk None None None None None None None None None true true
    ["CVE-2014-0160"; "CVE-2017-0144"] None (Some [22%Z]).

(** Shodan answers, the other providers do not. *)
Definition world_shodan_only (t : Z) : World :=
  mkWorld t t t t (fun a _ =>
    match a with
    | Shodan => inl flagged_record
    | _ => inr "Failed to fetch"
    end).


(** [{includeBasic: false}] *)
Definition nothing_requested : Options.t := Options.mk None (Some false) None None.

(** The envelope of a default call when only Shodan would answer. *)
Definition failed_envelope : Results.t :=
  envelope (world_shodan_only 0) sample_ip
    (map (fun a => invoke (world_shodan_only 0) a sample_ip) (dispatched Options.unset)).

(** * Properties *)

(** ** The matcher *)

Module RegexFacts.

Lemma matchk_sound r : forall s k,
  matchk r s k = true ->
  exists s1 s2, s = s1 ++ s2 /\ Matches r s1 /\ k s2 = true.
Proof.
  induction r as [|ranges|r1 IH1 r2 IH2|r1 IH1 r2 IH2]; intros s k H; simpl in H.
  - exists [], s. repeat split; [constructor | assumption].
  - destruct s as [|c s']; [discriminate|].
    apply andb_true_iff in H as [Hc Hk].
    exists [c], s'. repeat split; [now constructor | assumption].
  - apply IH1 in H as (s1 & s2 & -> & M1 & H).
    apply IH2 in H as (s3 & s4 & -> & M2 & H).
    exists (s1 ++ s3), s4. rewrite <- app_assoc.
    repeat split; [now constructor | assumption].
  - apply orb_true_iff in H as [H|H].
    + apply IH1 in H as (s1 & s2 & -> & M & H).
      exists s1, s2. repeat split; [now apply MAltL | assumption].
    + apply IH2 in H as (s1 & s2 & -> & M & H).
      exists s1, s2. repeat split; [now apply MAltR | assumption].
Qed.

Lemma matchk_complete r s1 :
  Matches r s1 -> forall s2 k, k s2 = true -> matchk r (s1 ++ s2) k = true.
Proof.
  induction 1 as [|ranges c Hc|r1 r2 s1 s3 _ IH1 _ IH2|r1 r2 s _ IH|r1 r2 s _ IH];
    intros s2 k Hk; simpl.
  - assumption.
  - now rewrite Hc, Hk.
  - rewrite <- app_assoc. apply IH1. now apply IH2.
  - rewrite IH by assumption. reflexivity.
  - rewrite IH by assumption. apply orb_true_r.
Qed.

Lemma at_end_nil s : at_end s = true -> s = [].
Proof. destruct s; [reflexivity | discriminate]. Qed.

(** The matcher decides membership in the language. *)
Lemma test_Matches r s : test r s = true <-> Matches r (list_ascii_of_string s).
Proof.
  unfold test. split.
  - intros H. apply matchk_sound in H as (s1 & s2 & E & M & H).
    apply at_end_nil in H. subst s2. rewrite app_nil_r in E. now rewrite E.
  - intros M. rewrite <- (app_nil_r (list_ascii_of_string s)).
    now apply matchk_complete.
Qed.

Lemma Matches_alphabet r s : Matches r s -> Forall (fun c => alphabet r c = true) s.
Proof.
  induction 1 as [|ranges c Hc|r1 r2 s1 s2 _ IH1 _ IH2|r1 r2 s _ IH|r1 r2 s _ IH]; simpl.
  - constructor.
  - now repeat constructor.
  - apply Forall_app. split.
    + eapply List.Forall_impl; [|exact IH1]. intros c Hc. simpl in Hc. now rewrite Hc.
    + eapply List.Forall_impl; [|exact IH2]. intros c Hc. simpl in Hc. rewrite Hc. apply orb_true_r.
  - eapply List.Forall_impl; [|exact IH]. intros c Hc. simpl in Hc. now rewrite Hc.
  - eapply List.Forall_impl; [|exact IH]. intros c Hc. simpl in Hc. rewrite Hc. apply orb_true_r.
Qed.

Lemma Matches_length r s : Matches r s -> (min_len r <= length s <= max_len r)%nat.
Proof.
  induction 1 as [|ranges c Hc|r1 r2 s1 s2 _ IH1 _ IH2|r1 r2 s _ IH|r1 r2 s _ IH]; simpl;
    rewrite ?length_app; lia.
Qed.

Lemma Matches_Eps s : Matches Eps s -> s = [].
Proof. now inversion 1. Qed.

Lemma Matches_Seq r1 r2 s :
  Matches (Seq r1 r2) s -> exists s1 s2, s = s1 ++ s2 /\ Matches r1 s1 /\ Matches r2 s2.
Proof. inversion 1; subst. eauto. Qed.

Lemma Matches_Class ranges s :
  Matches (Class ranges) s -> exists c, s = [c] /\ in_class ranges c = true.
Proof. inversion 1; subst. eauto. Qed.

Lemma Matches_Alt r1 r2 s : Matches (Alt r1 r2) s -> Matches r1 s \/ Matches r2 s.
Proof. inversion 1; subst; auto. Qed.

End RegexFacts.

Import RegexFacts.

(** ** Key validation *)

Example isValidIP_google_dns : isValidIP "8.8.8.8" = true.
Proof. reflexivity. Qed.

Example isValidIP_full_ipv6 : isValidIP "2001:0db8:85a3:0000:0000:8a2e:0370:7334" = true.
Proof. reflexivity. Qed.

Example isValidIP_trailing_text : isValidIP "1.2.3.4x" = false.
Proof. reflexivity. Qed.

(** Checking a property of characters on all 256 of them. *)
Lemma ascii_check (P : ascii -> bool) :
  forallb P all_ascii = true -> forall c, P c = true.
Proof.
  intros H c. rewrite forallb_forall in H. apply H.
  rewrite <- (ascii_nat_embedding c). unfold all_ascii.
  apply in_map, in_seq. pose proof (nat_ascii_bounded c). lia.
Qed.

Lemma is_digit_In c : is_digit c = true -> In c digits10.
Proof.
  intros H.
  assert (E : (if is_digit c then existsb (Ascii.eqb c) digits10 else true) = true).
  { revert c H. intros c _. revert c.
    apply (ascii_check (fun c => if is_digit c then existsb (Ascii.eqb c) digits10 else true)).
    vm_compute. reflexivity. }
  rewrite H in E. apply existsb_exists in E as (d & Hd & E).
  apply Ascii.eqb_eq in E. now subst.
Qed.

Lemma check3_sound (P : list ascii -> bool) :
  check3 P = true ->
  forall o, (1 <= length o <= 3)%nat -> Forall (fun c => is_digit c = true) o ->
  P o = true.
Proof.
  unfold check3. intros H o Hlen Hd.
  rewrite forallb_forall in H.
  destruct o as [|a [|b [|c [|? ?]]]]; simpl in Hlen; try lia.
  - inversion Hd as [|? ? Ha _]; subst.
    apply is_digit_In, H in Ha. now apply andb_true_iff in Ha as [Ha _].
  - inversion Hd as [|? ? Ha Hd']; subst. inversion Hd' as [|? ? Hb _]; subst.
    apply is_digit_In, H in Ha. apply andb_true_iff in Ha as [_ Ha].
    rewrite forallb_forall in Ha.
    apply is_digit_In, Ha in Hb. now apply andb_true_iff in Hb as [Hb _].
  - inversion Hd as [|? ? Ha Hd']; subst. inversion Hd' as [|? ? Hb Hd'']; subst.
    inversion Hd'' as [|? ? Hc _]; subst.
    apply is_digit_In, H in Ha. apply andb_true_iff in Ha as [_ Ha].
    rewrite forallb_forall in Ha.
    apply is_digit_In, Ha in Hb. apply andb_true_iff in Hb as [_ Hb].
    rewrite forallb_forall in Hb. now apply is_digit_In, Hb in Hc.
Qed.

Lemma string_length_list s : String.length s = length (list_ascii_of_string s).
Proof. induction s as [|c s IH]; simpl; [reflexivity | now rewrite IH]. Qed.

Lemma list_ascii_app a b :
  list_ascii_of_string (a +:+ b) = list_ascii_of_string a ++ list_ascii_of_string b.
Proof. induction a as [|c a IH]; simpl; [reflexivity | now rewrite IH]. Qed.

(** The octet alternative is the set of decimal writings of 0..255 with at
    most three digits. *)
Lemma octet_language o :
  Matches octet (list_ascii_of_string o) <-> octet_text o = true.
Proof.
  assert (K : forall l, (1 <= length l <= 3)%nat ->
              Forall (fun c => is_digit c = true) l ->
              matchk octet l at_end = octet_text (string_of_list_ascii l)).
  { intros l Hl Hd. apply Bool.eqb_prop.
    apply (check3_sound (fun l => Bool.eqb (matchk octet l at_end)
                                   (octet_text (string_of_list_ascii l))));
      [vm_compute; reflexivity | assumption | assumption]. }
  rewrite <- (string_of_list_ascii_of_string o) at 2.
  split.
  - intros M.
    rewrite <- K.
    + rewrite <- (app_nil_r (list_ascii_of_string o)). now apply matchk_complete.
    + apply Matches_length in M. exact M.
    + apply Matches_alphabet in M. eapply List.Forall_impl; [|exact M].
      intros c Hc. revert c Hc.
      assert (E : forall c, (if alphabet octet c then is_digit c else true) = true).
      { apply ascii_check. vm_compute. reflexivity. }
      intros c Hc. specialize (E c). now rewrite Hc in E.
  - intros T. rewrite (string_of_list_ascii_of_string o) in T.
    assert (T' := T). unfold octet_text in T'.
    apply andb_true_iff in T' as [T' _]. apply andb_true_iff in T' as [T' Hd].
    apply andb_true_iff in T' as [L1 L2].
    apply Nat.leb_le in L1, L2. rewrite string_length_list in L1, L2.
    unfold all_chars in Hd. rewrite forallb_forall in Hd.
    apply test_Matches. unfold test. rewrite K.
    + now rewrite string_of_list_ascii_of_string.
    + lia.
    + apply Forall_forall. intros c Hc. apply Hd. now apply list_elem_of_In.
Qed.

Lemma hexgroup_language g :
  Matches hexgroup (list_ascii_of_string g) <-> hex_group g = true.
Proof.
  assert (A1 : forall c, (if alphabet hexgroup c then is_hex c else true) = true).
  { apply ascii_check. vm_compute. reflexivity. }
  assert (A2 : forall c, (if is_hex c then in_class [("0", "9"); ("a", "f"); ("A", "F")]%char c
                          else true) = true).
  { apply ascii_check. vm_compute. reflexivity. }
  unfold hex_group, all_chars. rewrite string_length_list.
  set (l := list_ascii_of_string g). clearbody l. split.
  - intros M. pose proof (Matches_length _ _ M) as [L1 L2]. simpl in L1, L2.
    apply Matches_alphabet in M.
    rewrite !andb_true_iff, !Nat.leb_le, forallb_forall. repeat split; try lia.
    intros c Hc. rewrite Forall_forall in M.
    apply list_elem_of_In, M in Hc. specialize (A1 c). now rewrite Hc in A1.
  - rewrite !andb_true_iff, !Nat.leb_le, forallb_forall. intros [[L1 L2] H].
    assert (Hin : forall c, In c l -> in_class [("0", "9"); ("a", "f"); ("A", "F")]%char c = true).
    { intros c Hc. apply H in Hc. specialize (A2 c). now rewrite Hc in A2. }
    assert (Hm : matchk hexgroup l at_end = true).
    { destruct l as [|a [|b [|c [|d [|? ?]]]]]; simpl in L1, L2; try lia;
        cbn [hexgroup Between Times UpTo Opt matchk hexdigit Nat.sub at_end];
        rewrite ?Hin by (simpl; tauto); reflexivity. }
    apply matchk_sound in Hm as (s1 & s2 & E & M & Hs2).
    apply at_end_nil in Hs2. subst s2. rewrite app_nil_r in E. now subst s1.
Qed.

(** [(?:r c){n} r] matches the lists of [n + 1] matches of [r] separated
    by [c]. *)
Lemma Matches_separated r c n : forall s,
  Matches (Seq (Times n (Seq r (lit c))) r) s <->
  exists parts, length parts = S n /\ Forall (Matches r) parts /\ s = join c parts.
Proof.
  induction n as [|n IH]; intros s.
  - simpl. split.
    + intros M. apply Matches_Seq in M as (s1 & s2 & -> & M1 & M2).
      apply Matches_Eps in M1. subst s1. exists [s2]. simpl. auto.
    + intros (parts & L & F & ->).
      destruct parts as [|p [|? ?]]; try discriminate.
      inversion F; subst. simpl. change p with ([] ++ p). constructor; [constructor | assumption].
  - split.
    + intros M. apply Matches_Seq in M as (s1 & s3 & -> & M1 & M3).
      simpl in M1. apply Matches_Seq in M1 as (s0 & s2 & -> & M0 & M2).
      apply Matches_Seq in M0 as (p & sc & -> & Mp & Mc).
      apply Matches_Class in Mc as (c' & -> & Hc).
      assert (c' = c) as ->.
      { unfold in_class, in_range in Hc. simpl in Hc. rewrite orb_false_r in Hc.
        apply andb_true_iff in Hc as [H1 H2]. apply Nat.leb_le in H1, H2.
        rewrite <- (ascii_nat_embedding c'), <- (ascii_nat_embedding c). f_equal. lia. }
      assert (M : Matches (Seq (Times n (Seq r (lit c))) r) (s2 ++ s3)) by now constructor.
      apply IH in M as (parts & L & F & E).
      exists (p :: parts). repeat split; [simpl; lia | now constructor |].
      destruct parts as [|q parts]; [discriminate|].
      change (join c (p :: q :: parts)) with (p ++ c :: join c (q :: parts)).
      rewrite <- E. now rewrite <- !app_assoc.
    + intros (parts & L & F & ->).
      destruct parts as [|p [|q parts]]; try discriminate.
      inversion F as [|? ? Mp F']; subst.
      assert (M : Matches (Seq (Times n (Seq r (lit c))) r) (join c (q :: parts))).
      { apply IH. exists (q :: parts). repeat split; [simpl in *; lia | assumption]. }
      apply Matches_Seq in M as (s2 & s3 & E & M2 & M3).
      change (join c (p :: q :: parts)) with (p ++ c :: join c (q :: parts)).
      rewrite E.
      replace (p ++ c :: s2 ++ s3) with (((p ++ [c]) ++ s2) ++ s3)
        by (rewrite <- !app_assoc; reflexivity).
      constructor; [|assumption]. simpl. constructor; [|assumption].
      constructor; [assumption|]. constructor.
      unfold in_class, in_range. simpl. now rewrite Nat.leb_refl.
Qed.

Lemma join_concat c parts :
  string_of_list_ascii (join c (map list_ascii_of_string parts))
  = String.concat (String c EmptyString) parts.
Proof.
  induction parts as [|p [|q parts] IH]; [reflexivity | apply string_of_list_ascii_of_string |].
  change (map list_ascii_of_string (p :: q :: parts))
    with (list_ascii_of_string p :: map list_ascii_of_string (q :: parts)).
  change (join c (list_ascii_of_string p :: map list_ascii_of_string (q :: parts)))
    with (list_ascii_of_string p ++ c :: join c (map list_ascii_of_string (q :: parts))).
  change (String.concat (String c EmptyString) (p :: q :: parts))
    with (p +:+ String c EmptyString +:+ String.concat (String c EmptyString) (q :: parts)).
  rewrite <- IH.
  rewrite <- (string_of_list_ascii_of_string p) at 2.
  generalize (list_ascii_of_string p) as l. intros l.
  generalize (join c (map list_ascii_of_string (q :: parts))) as t. intros t.
  induction l as [|a l IHl]; simpl; [reflexivity | now rewrite IHl].
Qed.

(** A regular expression of separated parts, read on strings. *)
Lemma test_separated r c n (P : string -> bool) ip :
  (forall p, Matches r (list_ascii_of_string p) <-> P p = true) ->
  test (Seq (Times n (Seq r (lit c))) r) ip = true <->
  exists parts : list string,
    length parts = S n /\ Forall (fun p => P p = true) parts
    /\ ip = String.concat (String c EmptyString) parts.
Proof.
  intros HP. rewrite test_Matches, Matches_separated. split.
  - intros (parts & L & F & E).
    exists (map string_of_list_ascii parts). repeat split.
    + now rewrite length_map.
    + apply Forall_map. eapply List.Forall_impl; [|exact F].
      intros p Mp. apply HP. now rewrite list_ascii_of_string_of_list_ascii.
    + rewrite <- join_concat, map_map.
      rewrite (map_ext _ (fun x => x)) by apply list_ascii_of_string_of_list_ascii.
      rewrite map_id, <- E. symmetry. apply string_of_list_ascii_of_string.
  - intros (parts & L & F & ->).
    exists (map list_ascii_of_string parts). repeat split.
    + now rewrite length_map.
    + apply Forall_map. eapply List.Forall_impl; [|exact F].
      intros p Hp. now apply HP.
    + rewrite <- join_concat. apply list_ascii_of_string_of_list_ascii.
Qed.

(** Key validation accepts exactly the dotted quads and the eight-group
    literals. *)
Lemma isValidIP_shape ip :
  isValidIP ip = true <-> dotted_quad ip \/ eight_groups ip.
Proof.
  unfold isValidIP, dotted_quad, eight_groups, ipv4Regex, ipv6Regex.
  rewrite orb_true_iff.
  rewrite (test_separated octet "." 3 octet_text ip octet_language).
  rewrite (test_separated hexgroup ":" 7 hex_group ip hexgroup_language).
  reflexivity.
Qed.

Lemma has_double_colon_intro x y : has_double_colon (x ++ ":" :: ":" :: y)%char = true.
Proof.
  induction x as [|a x IH]; [reflexivity|].
  change ((a :: x) ++ ":"%char :: ":"%char :: y) with (a :: (x ++ ":"%char :: ":"%char :: y)).
  destruct (x ++ ":"%char :: ":"%char :: y) as [|c' t] eqn:E.
  - now destruct x.
  - change (has_double_colon (a :: c' :: t))
      with ((Ascii.eqb a ":" && Ascii.eqb c' ":") || has_double_colon (c' :: t)).
    rewrite IH. apply orb_true_r.
Qed.

Lemma has_double_colon_sep p t :
  colon_free p -> head_not_colon t -> has_double_colon t = false ->
  has_double_colon (p ++ ":"%char :: t) = false.
Proof.
  intros Hp Ht Hdc. induction Hp as [|a p Ha _ IH].
  - destruct t as [|c' t']; [reflexivity|].
    simpl in Ht. apply Ascii.eqb_neq in Ht.
    change (has_double_colon ([] ++ ":"%char :: c' :: t'))
      with ((Ascii.eqb ":" ":" && Ascii.eqb c' ":") || has_double_colon (c' :: t')).
    now rewrite Ht, Hdc.
  - change ((a :: p) ++ ":"%char :: t) with (a :: (p ++ ":"%char :: t)).
    destruct (p ++ ":"%char :: t) as [|c' u] eqn:E; [reflexivity|].
    apply Ascii.eqb_neq in Ha.
    change (has_double_colon (a :: c' :: u))
      with ((Ascii.eqb a ":" && Ascii.eqb c' ":") || has_double_colon (c' :: u)).
    now rewrite Ha, IH.
Qed.

Lemma has_double_colon_free p : colon_free p -> has_double_colon p = false.
Proof.
  intros Hp. induction Hp as [|a p Ha _ IH]; [reflexivity|].
  destruct p as [|c' u]; [reflexivity|].
  apply Ascii.eqb_neq in Ha.
  change (has_double_colon (a :: c' :: u))
    with ((Ascii.eqb a ":" && Ascii.eqb c' ":") || has_double_colon (c' :: u)).
  now rewrite Ha, IH.
Qed.

Lemma join_no_double_colon parts :
  Forall (fun p => p <> [] /\ colon_free p) parts ->
  has_double_colon (join ":" parts) = false /\ head_not_colon (join ":" parts).
Proof.
  induction 1 as [|p parts [Hne Hp] _ [IH1 IH2]]; [now split|].
  assert (Hhead : forall t, head_not_colon (p ++ t)).
  { intros t. destruct p as [|a p]; [congruence|]. now inversion Hp. }
  destruct parts as [|q parts].
  - simpl. split; [now apply has_double_colon_free|].
    rewrite <- (app_nil_r p). apply Hhead.
  - change (join ":" (p :: q :: parts)) with (p ++ ":"%char :: join ":" (q :: parts)).
    split; [now apply has_double_colon_sep | apply Hhead].
Qed.

Lemma Matches_colon_free r s :
  alphabet r ":" = false -> Matches r s -> colon_free s.
Proof.
  intros Ha M. apply Matches_alphabet in M.
  eapply List.Forall_impl; [|exact M].
  intros c Hc ->. congruence.
Qed.

(** No accepted key contains two adjacent colons. *)
Lemma isValidIP_no_double_colon ip :
  isValidIP ip = true -> has_double_colon (list_ascii_of_string ip) = false.
Proof.
  unfold isValidIP. rewrite orb_true_iff, !test_Matches.
  intros [M|M].
  - apply has_double_colon_free. now apply (Matches_colon_free ipv4Regex).
  - apply Matches_separated in M as (parts & _ & F & ->).
    apply join_no_double_colon.
    eapply List.Forall_impl; [|exact F].
    intros p Mp. split.
    + apply Matches_length in Mp. simpl in Mp. destruct p; [simpl in Mp; lia | discriminate].
    + now apply (Matches_colon_free hexgroup).
Qed.

Lemma compressed_invalid ip : compressed ip -> isValidIP ip = false.
Proof.
  intros (pre & post & ->).
  destruct (isValidIP (pre +:+ "::" +:+ post)) eqn:E; [|reflexivity].
  apply isValidIP_no_double_colon in E.
  rewrite !list_ascii_app in E.
  change (list_ascii_of_string "::") with [":"; ":"]%char in E.
  simpl app in E. now rewrite has_double_colon_intro in E.
Qed.

Lemma octet_text_pretty n : (n <= 255)%nat -> octet_text (pretty n) = true.
Proof.
  intros H.
  assert (E : forallb (fun n => octet_text (pretty n)) (seq 0 256) = true)
    by (vm_compute; reflexivity).
  rewrite forallb_forall in E. apply E, in_seq. lia.
Qed.

Lemma dotted_valid a b c d :
  (a <= 255)%nat -> (b <= 255)%nat -> (c <= 255)%nat -> (d <= 255)%nat ->
  isValidIP (dotted a b c d) = true.
Proof.
  intros Ha Hb Hc Hd. apply isValidIP_shape. left.
  exists [pretty a; pretty b; pretty c; pretty d].
  split; [reflexivity|]. split; [|reflexivity].
  repeat constructor; now apply octet_text_pretty.
Qed.

(** ** Objects and the counts of [getMostCommon] *)

Section ObjFacts.
Context {A : Type}.
Implicit Types (o : jsobj A) (k : string).



Lemma insert_index_perm (e : N * (string * A)) l : Permutation (insert_index e l) (e :: l).
Proof.
  induction l as [|e' l IH]; simpl; [reflexivity|].
  destruct (fst e <? fst e')%N; [reflexivity|].
  rewrite IH. apply perm_swap.
Qed.

(** Enumeration neither drops nor invents a property. *)
Lemma Object_entries_perm o : Permutation (Object_entries o) o.
Proof.
  unfold Object_entries. induction o as [|[k v] o IH]; simpl; [reflexivity|].
  destruct (array_index k) as [n|].
  - rewrite insert_index_perm. simpl. now rewrite IH.
  - rewrite <- Permutation_middle. now rewrite IH.
Qed.

Lemma Object_keys_perm o : Permutation (Object_keys o) (map fst o).
Proof. unfold Object_keys. apply Permutation_map, Object_entries_perm. Qed.

Lemma length_Object_keys o : length (Object_keys o) = length o.
Proof. rewrite (Permutation_length (Object_keys_perm o)). apply length_map. Qed.

Lemma length_Object_values o : length (Object_values o) = length o.
Proof.
  unfold Object_values. rewrite length_map.
  apply Permutation_length, Object_entries_perm.
Qed.

(** Without array-index names, enumeration is creation order. *)
Lemma Object_entries_named o :
  Forall (fun k => array_index k = None) (map fst o) -> Object_entries o = o.
Proof.
  unfold Object_entries. induction o as [|[k v] o IH]; simpl; [reflexivity|].
  intros H. inversion H as [|? ? Hk Ho]; subst. simpl in Hk. rewrite Hk.
  specialize (IH Ho).
  destruct (index_entries o) as [|e l] eqn:E.
  - simpl in *. now rewrite IH.
  - exfalso. simpl in IH.
    assert (L : length (snd e :: map snd l ++ named_entries o) = length o) by now rewrite IH.
    assert (L' : length (named_entries o) <= length o).
    { clear. induction o as [|[k v] o IH]; simpl; [lia|].
      destruct (array_index k); simpl; lia. }
    assert (N : named_entries o = o).
    { clear - Ho. induction o as [|[k v] o IH]; simpl; [reflexivity|].
      inversion Ho as [|? ? Hk Ho']; subst. simpl in Hk. rewrite Hk. now rewrite IH. }
    rewrite N in L. simpl in L. rewrite length_app in L. lia.
Qed.

End ObjFacts.

(** *** The counts object of [getMostCommon] *)











(** *** The reduction of [getMostCommon] *)





(** *** The confidence scorer *)

Lemma capped_quarter_bounds n : (0 <= capped_quarter n /\ capped_quarter n <= 1)%Q.
Proof.
  unfold capped_quarter. split.
  - apply Q.min_glb; [discriminate|].
    apply Qmult_le_0_compat; [discriminate|].
    change 0%Q with (inject_Z 0). rewrite <- Zle_Qle. lia.
  - apply Q.le_min_l.
Qed.

Lemma capped_quarter_mono n m :
  (n <= m)%nat -> (capped_quarter n <= capped_quarter m)%Q.
Proof.
  intros H. unfold capped_quarter. apply Q.min_le_compat_l.
  apply Qmult_le_l; [reflexivity|]. rewrite <- Zle_Qle. lia.
Qed.

Lemma scores_of_count (providers : jsobj Provider.t) :
  (1 <= length providers)%nat ->
  exists overall,
    calculateConfidenceScores providers
    = Confidence.scores overall overall overall (overall * 0.8)%Q
    /\ overall == capped_quarter (length providers).
Proof.
  intros H. unfold calculateConfidenceScores. rewrite length_Object_keys.
  destruct (Nat.eqb_spec (length providers) 0) as [E|_]; [lia|].
  eexists. split; [reflexivity|].
  unfold capped_quarter. rewrite Q.min_comm.
  apply Q.min_compat; [reflexivity | apply Qmult_comm].
Qed.

Lemma scores_of_nothing (providers : jsobj Provider.t) :
  length providers = 0%nat -> calculateConfidenceScores providers = Confidence.empty.
Proof.
  intros H. unfold calculateConfidenceScores. now rewrite length_Object_keys, H.
Qed.

(** *** What the aggregator collects *)

Lemma push_string_app l v :
  push_string l v = l ++ supplied_strings (fun _ => v) [Provider.blank].
Proof.
  unfold push_string, supplied_strings. simpl.
  destruct v as [s|]; [destruct (String.eqb s "")|]; now rewrite ?app_nil_r.
Qed.

Lemma push_number_app l v :
  push_number l v = l ++ supplied_numbers (fun _ => v) [Provider.blank].
Proof.
  unfold push_number, supplied_numbers. simpl.
  destruct v as [q|]; [destruct (Qeq_bool q 0)|]; now rewrite ?app_nil_r.
Qed.

Lemma collect_fold records : forall values,
  fold_left collect records values
  = Values.mk
      (Values.countries values ++ supplied_strings Provider.country records)
      (Values.regions values ++ supplied_strings Provider.region records)
      (Values.cities values ++ supplied_strings Provider.city records)
      (Values.latitudes values ++ supplied_numbers Provider.latitude records)
      (Values.longitudes values ++ supplied_numbers Provider.longitude records)
      (Values.timezones values ++ supplied_strings Provider.timezone records)
      (Values.isps values ++ supplied_strings Provider.isp records)
      (Values.orgs values ++ supplied_strings Provider.org records)
      (Values.asns values ++ supplied_strings Provider.asn records).
Proof.
  induction records as [|p records IH]; intros values.
  - destruct values. simpl. now rewrite !app_nil_r.
  - cbn [fold_left]. rewrite IH. unfold collect. cbn [Values.countries Values.regions
      Values.cities Values.latitudes Values.longitudes Values.timezones Values.isps
      Values.orgs Values.asns].
    rewrite !push_string_app, !push_number_app.
    unfold supplied_strings, supplied_numbers. cbn [flat_map].
    rewrite !app_nil_r, <- !app_assoc. reflexivity.
Qed.

(** Each aggregated field is computed from the supplied values of that field,
    in the enumeration order of the records. *)
Lemma aggregateProviderData_fields providers :
  let records := Object_values providers in
  aggregateProviderData providers
  = Aggregated.mk
      (Location.mk
         (getMostCommon (supplied_strings Provider.country records))
         (getMostCommon (supplied_strings Provider.region records))
         (getMostCommon (supplied_strings Provider.city records))
         (getAverage (supplied_numbers Provider.latitude records))
         (getAverage (supplied_numbers Provider.longitude records))
         (getMostCommon (supplied_strings Provider.timezone records)))
      (Network.mk
         (getMostCommon (supplied_strings Provider.isp records))
         (getMostCommon (supplied_strings Provider.org records))
         (getMostCommon (supplied_strings Provider.asn records))).
Proof. intros records. unfold aggregateProviderData. now rewrite collect_fold. Qed.

Lemma fold_Qplus l : forall a, fold_left Qplus l a == a + Qsum l.
Proof.
  induction l as [|q l IH]; intros a; simpl.
  - symmetry. apply Qplus_0_r.
  - rewrite IH. symmetry. apply Qplus_assoc.
Qed.

(** [getAverage] is the arithmetic mean, and [null] on the empty array. *)
Lemma getAverage_mean array : same_number (getAverage array) (mean_of array).
Proof.
  destruct array as [|q array]; [exact I|].
  unfold getAverage, mean_of, mean, same_number.
  rewrite fold_Qplus, Qplus_0_l. reflexivity.
Qed.

Lemma aggregate_nothing : aggregateProviderData [] = no_fields.
Proof. reflexivity. Qed.

(** *** The fan-out *)

Lemma obj_set_fresh {A} k (v : A) (o : jsobj A) :
  ~ In k (map fst o) -> obj_set k v o = o ++ [(k, v)].
Proof.
  induction o as [|[k0 v0] o IH]; simpl; intros H; [reflexivity|].
  destruct (String.eqb_spec k k0) as [->|_]; [tauto|].
  rewrite IH; [reflexivity | tauto].
Qed.

Lemma forEach_from_spec settled : forall index providers errors,
  List.NoDup (map fst (providers ++ fulfilled_records settled)) ->
  forEach_from index settled (providers, errors)
  = (providers ++ fulfilled_records settled, errors ++ rejected_errors index settled).
Proof.
  induction settled as [|[tag data|message] settled IH]; intros index providers errors Hnd.
  - simpl. now rewrite !app_nil_r.
  - simpl in *. rewrite IH.
    + rewrite obj_set_fresh.
      * now rewrite <- app_assoc.
      * rewrite map_app in Hnd. simpl in Hnd.
        apply List.NoDup_remove_2 in Hnd. rewrite in_app_iff in Hnd. tauto.
    + rewrite obj_set_fresh.
      * now rewrite <- app_assoc.
      * rewrite map_app in Hnd. simpl in Hnd.
        apply List.NoDup_remove_2 in Hnd. rewrite in_app_iff in Hnd. tauto.
  - simpl in *. rewrite IH by assumption. now rewrite <- app_assoc.
Qed.

Lemma invoke_tag w a ip :
  invoke w a ip = fulfilled (provider_tag a) Provider.blank
  \/ (exists data, invoke w a ip = fulfilled (provider_tag a) data)
  \/ (exists message, invoke w a ip = rejected message).
Proof.
  destruct a; simpl;
    unfold fetchFromIPAPI, fetchFromIPInfo, fetchFromIPGeolocation, fetchFromShodan,
      fetchThreatIntelligence, settle;
    try (destruct (response w _ ip); eauto); eauto.
Qed.

Lemma fulfilled_tags w ip adapters :
  incl (map fst (fulfilled_records (map (fun a => invoke w a ip) adapters)))
       (map provider_tag adapters).
Proof.
  induction adapters as [|a adapters IH]; simpl; [easy|].
  destruct (invoke_tag w a ip) as [E|[[d E]|[m E]]]; rewrite E; simpl.
  - apply incl_cons; [now left | now apply incl_tl].
  - apply incl_cons; [now left | now apply incl_tl].
  - now apply incl_tl.
Qed.

Lemma fulfilled_NoDup w ip adapters :
  List.NoDup (map provider_tag adapters) ->
  List.NoDup (map fst (fulfilled_records (map (fun a => invoke w a ip) adapters))).
Proof.
  induction adapters as [|a adapters IH]; simpl; intros H; [constructor|].
  inversion H as [|? ? Hn Hd]; subst.
  destruct (invoke_tag w a ip) as [E|[[d E]|[m E]]]; rewrite E; simpl; auto;
    (constructor; [|auto]); intros Hin; apply Hn; now apply (fulfilled_tags w ip).
Qed.

Lemma dispatched_NoDup options : List.NoDup (map provider_tag (dispatched options)).
Proof.
  unfold dispatched.
  destruct (not_false (Options.includeBasic options)),
    (truthy (Options.includeThreatIntel options)); simpl;
    repeat (constructor; [simpl; intuition discriminate|]); constructor.
Qed.

Lemma launch_calls w ip adapters :
  launch w ip (map call adapters)
  = (adapters, Return (map (fun a => invoke w a ip) adapters)).
Proof.
  induction adapters as [|a adapters IH]; simpl; [reflexivity | now rewrite IH].
Qed.

Lemma requested_dispatched options :
  truthy (Options.includeDetailed options) = false ->
  requested options = map call (dispatched options).
Proof.
  intros H. unfold requested, dispatched. rewrite H.
  destruct (not_false (Options.includeBasic options)),
    (truthy (Options.includeThreatIntel options)); reflexivity.
Qed.


(** A call that goes to the providers, without [includeDetailed]. *)
Lemma fan_out w this ip options :
  fetch_path w this ip options ->
  truthy (Options.includeDetailed options) = false ->
  let settled := map (fun a => invoke w a ip) (dispatched options) in
  let e := envelope w ip settled in
  getComprehensiveIPInfo w this ip options
  = mkRun (Return e)
      (addToHistory (cacheResults this (now_store w) ip e) (now_history w) ip e)
      (dispatched options).
Proof.
  intros [Hv Hc] Hd settled e. unfold getComprehensiveIPInfo. rewrite Hv. simpl.
  assert (K : launch w ip (requested options) = (dispatched options, Return settled)).
  { rewrite requested_dispatched by assumption. apply launch_calls. }
  assert (F : forEach_from 0 settled ([], [])
              = (fulfilled_records settled, rejected_errors 0 settled)).
  { rewrite forEach_from_spec; [reflexivity|]. simpl.
    apply fulfilled_NoDup, dispatched_NoDup. }
  destruct Hc as [Hc|Hc]; rewrite Hc.
  - rewrite K, F. reflexivity.
  - destruct (getFromCache this (now_lookup w) ip); rewrite K, F; reflexivity.
Qed.

(** A call that goes to the providers with [includeDetailed] set. *)
Lemma fan_out_detailed w this ip options :
  fetch_path w this ip options ->
  truthy (Options.includeDetailed options) = true ->
  getComprehensiveIPInfo w this ip options
  = mkRun (Throw (NotAFunction "fetchFromMaxMind")) this
      ((if not_false (Options.includeBasic options) then [IPAPI; IPInfo] else [])
       ++ [IPGeolocation]).
Proof.
  intros [Hv Hc] Hd. unfold getComprehensiveIPInfo. rewrite Hv. simpl.
  assert (K : launch w ip (requested options)
              = ((if not_false (Options.includeBasic options) then [IPAPI; IPInfo] else [])
                 ++ [IPGeolocation], Throw (NotAFunction "fetchFromMaxMind"))).
  { unfold requested. rewrite Hd. destruct (not_false _); reflexivity. }
  destruct Hc as [Hc|Hc]; rewrite Hc.
  - now rewrite K.
  - destruct (getFromCache this (now_lookup w) ip); now rewrite K.
Qed.

(** A fresh cache entry answers the call, whatever the other options. *)
Lemma cache_hit w this ip options cached :
  isValidIP ip = true ->
  getFromCache this (now_lookup w) ip = Some cached ->
  truthy (Options.forceRefresh options) = false ->
  getComprehensiveIPInfo w this ip options = mkRun (Return cached) this [].
Proof.
  intros Hv Hc Hf. unfold getComprehensiveIPInfo. now rewrite Hv, Hc, Hf.
Qed.

Lemma invalid_key w this ip options :
  isValidIP ip = false ->
  getComprehensiveIPInfo w this ip options = mkRun (Throw InvalidIPAddressFormat) this [].
Proof. intros Hv. unfold getComprehensiveIPInfo. now rewrite Hv. Qed.


Lemma getFromCache_stored this now ip data history t :
  getFromCache (addToHistory (cacheResults this now ip data) history ip data) t ip
  = if (t - now <? cacheExpiry)%Z then Some data else None.
Proof.
  unfold getFromCache, addToHistory, cacheResults. simpl.
  now rewrite lookup_insert_eq.
Qed.

(** ** Partial failure *)

Lemma all_rejected_records settled :
  forallb is_rejected settled = true -> fulfilled_records settled = [].
Proof.
  induction settled as [|[tag data|message] settled IH]; simpl; intros H;
    [reflexivity | discriminate | now apply IH].
Qed.

Lemma all_rejected_errors settled : forall index,
  forallb is_rejected settled = true ->
  length (rejected_errors index settled) = length settled.
Proof.
  induction settled as [|[tag data|message] settled IH]; simpl; intros index H;
    [reflexivity | discriminate | now rewrite IH].
Qed.

Lemma returned_not_detailed w this ip options e :
  fetch_path w this ip options ->
  result (getComprehensiveIPInfo w this ip options) = Return e ->
  truthy (Options.includeDetailed options) = false.
Proof.
  intros Hp Hr. destruct (truthy (Options.includeDetailed options)) eqn:E; [|reflexivity].
  rewrite (fan_out_detailed w this ip options Hp E) in Hr. discriminate.
Qed.

Lemma returned_valid w this ip options e :
  result (getComprehensiveIPInfo w this ip options) = Return e -> isValidIP ip = true.
Proof.
  intros Hr. destruct (isValidIP ip) eqn:E; [reflexivity|].
  rewrite (invalid_key w this ip options E) in Hr. discriminate.
Qed.

(** Claim C1: for every mix of succeeding and failing adapters on a valid IP
    the call should return an envelope that partitions the outcomes.  With
    [includeDetailed] set the call instead throws, whatever the adapters do:
    line 93 calls [this.fetchFromMaxMind], which the class does not define.
    The adapters invoked before it are not awaited and nothing is cached. *)
Theorem detailed_call_throws w this ip options :
  fetch_path w this ip options ->
  truthy (Options.includeDetailed options) = true ->
  let run := getComprehensiveIPInfo w this ip options in
  result run = Throw (NotAFunction "fetchFromMaxMind")
  /\ after run = this
  /\ In IPGeolocation (invoked run).
Proof.
  intros Hp Hd run. subst run. rewrite (fan_out_detailed w this ip options Hp Hd).
  simpl. repeat split. apply in_or_app. right. now left.
Qed.

Lemma detailed_call_throws_witness :
  let run := getComprehensiveIPInfo (world_up 0) constructor sample_ip detailed in
  result run = Throw (NotAFunction "fetchFromMaxMind")
  /\ after run = constructor
  /\ In IPGeolocation (invoked run).
Proof.
  apply (detailed_call_throws (world_up 0) constructor sample_ip detailed).
  - split; [reflexivity | left; reflexivity].
  - reflexivity.
Defined.

(** Without [includeDetailed] the envelope does partition the outcomes: the
    records of the fulfilled promises on one side, one error entry for each
    rejected promise on the other. *)
Lemma fan_out_partition w this ip options :
  fetch_path w this ip options ->
  truthy (Options.includeDetailed options) = false ->
  let settled := map (fun a => invoke w a ip) (dispatched options) in
  exists e,
    result (getComprehensiveIPInfo w this ip options) = Return e
    /\ Results.providers e = fulfilled_records settled
    /\ Results.errors e = rejected_errors 0 settled.
Proof.
  intros Hp Hd settled. rewrite (fan_out w this ip options Hp Hd).
  eexists. repeat split.
Qed.

(** Claim C2, as the code has it: on a valid key, when the call goes to the
    providers without [includeDetailed] and every dispatched adapter fails,
    the call returns an envelope with no provider record, one error entry for
    each adapter, every aggregated field absent, and the empty object as
    confidence, so that [confidence.overall] is [undefined]. *)
Theorem all_adapters_failing w this ip options :
  fetch_path w this ip options ->
  truthy (Options.includeDetailed options) = false ->
  forallb (fun a => is_rejected (invoke w a ip)) (dispatched options) = true ->
  exists e,
    result (getComprehensiveIPInfo w this ip options) = Return e
    /\ Results.providers e = []
    /\ length (Results.errors e) = length (dispatched options)
    /\ Results.aggregated e = no_fields
    /\ Results.confidence e = Confidence.empty
    /\ Confidence.overall (Results.confidence e) = None.
Proof.
  intros Hp Hd Hr. rewrite (fan_out w this ip options Hp Hd).
  set (settled := map (fun a => invoke w a ip) (dispatched options)).
  assert (Hs : forallb is_rejected settled = true).
  { unfold settled. clear - Hr.
    induction (dispatched options) as [|a l IH]; simpl in *; [reflexivity|].
    apply andb_true_iff in Hr as [Ha Hl]. now rewrite Ha, IH. }
  eexists. split; [reflexivity|]. unfold envelope. simpl.
  rewrite (all_rejected_records settled Hs).
  rewrite (all_rejected_errors settled 0 Hs).
  unfold settled. rewrite length_map. repeat split.
Qed.

Lemma all_adapters_failing_witness :
  exists e,
    result (getComprehensiveIPInfo (world_down 0) constructor sample_ip Options.unset)
    = Return e
    /\ Results.providers e = []
    /\ length (Results.errors e) = length (dispatched Options.unset)
    /\ Results.aggregated e = no_fields
    /\ Results.confidence e = Confidence.empty
    /\ Confidence.overall (Results.confidence e) = None.
Proof.
  apply (all_adapters_failing (world_down 0) constructor sample_ip Options.unset).
  - split; [reflexivity | left; reflexivity].
  - reflexivity.
  - reflexivity.
Defined.

(** With both basic providers down the envelope has no [confidence.overall],
    let alone one equal to 0. *)
Lemma all_down_overall_not_zero :
  ~ (exists e,
       result (getComprehensiveIPInfo (world_down 0) constructor sample_ip Options.unset)
       = Return e
       /\ same_number (Confidence.overall (Results.confidence e)) (Some 0%Q)).
Proof.
  intros (e & He & Ho). vm_compute in He. injection He as <-. exact Ho.
Qed.

(** ** The majority rule *)





(** ** Confidence *)

(** Claim C4, as the code has it: with at least one provider record the
    scorer returns overall = min(1.0, 0.25 × providerCount), location =
    network = overall and security = overall × 0.8, where providerCount is the
    number of records; with none it returns the empty object. *)
Theorem confidence_formula (providers : jsobj Provider.t) :
  let providerCount := length (Object_keys providers) in
  providerCount = length providers
  /\ ((1 <= providerCount)%nat ->
      exists overall,
        calculateConfidenceScores providers
        = Confidence.scores overall overall overall (overall * 0.8)%Q
        /\ overall == capped_quarter providerCount)
  /\ (providerCount = 0%nat -> calculateConfidenceScores providers = Confidence.empty).
Proof.
  intros providerCount. subst providerCount. rewrite length_Object_keys.
  split; [reflexivity|]. split; [apply scores_of_count | apply scores_of_nothing].
Qed.

Lemma confidence_formula_witness :
  exists overall,
    calculateConfidenceScores two_records
    = Confidence.scores overall overall overall (overall * 0.8)%Q
    /\ overall == capped_quarter 2.
Proof.
  apply (proj1 (proj2 (confidence_formula two_records))). simpl. lia.
Defined.

(** With no record the scorer gives no scores at all. *)
Lemma no_records_no_scores :
  ~ (exists overall,
       calculateConfidenceScores []
       = Confidence.scores overall overall overall (overall * 0.8)%Q
       /\ overall == capped_quarter 0).
Proof. intros (overall & H & _). discriminate. Qed.

(** Claim C5, as the code has it: from one provider record on,
    [confidence.overall] does not decrease when the number of records grows,
    and it lies in [0,1]. *)
Theorem confidence_monotone (p1 p2 : jsobj Provider.t) :
  (1 <= length p1)%nat -> (length p1 < length p2)%nat ->
  exists o1 o2,
    Confidence.overall (calculateConfidenceScores p1) = Some o1
    /\ Confidence.overall (calculateConfidenceScores p2) = Some o2
    /\ (o1 <= o2)%Q
    /\ (0 <= o1)%Q /\ (o1 <= 1)%Q /\ (0 <= o2)%Q /\ (o2 <= 1)%Q.
Proof.
  intros H1 H2.
  destruct (scores_of_count p1 H1) as (o1 & E1 & Q1).
  destruct (scores_of_count p2) as (o2 & E2 & Q2); [lia|].
  exists o1, o2. rewrite E1, E2. simpl.
  pose proof (capped_quarter_bounds (length p1)) as [L1 U1].
  pose proof (capped_quarter_bounds (length p2)) as [L2 U2].
  split; [reflexivity|]. split; [reflexivity|].
  rewrite Q1, Q2. repeat split; try assumption.
  apply capped_quarter_mono. lia.
Qed.

Lemma confidence_monotone_witness :
  exists o1 o2,
    Confidence.overall (calculateConfidenceScores [("ipapi", Provider.blank)]) = Some o1
    /\ Confidence.overall (calculateConfidenceScores two_records) = Some o2
    /\ (o1 <= o2)%Q
    /\ (0 <= o1)%Q /\ (o1 <= 1)%Q /\ (0 <= o2)%Q /\ (o2 <= 1)%Q.
Proof.
  apply (confidence_monotone [("ipapi", Provider.blank)] two_records); simpl; lia.
Defined.

(** With no record [confidence.overall] is not a number of [0,1]. *)
Lemma no_records_no_overall :
  ~ (exists overall,
       Confidence.overall (calculateConfidenceScores []) = Some overall
       /\ (0 <= overall)%Q /\ (overall <= 1)%Q).
Proof. intros (overall & H & _). discriminate. Qed.

(** ** Averages *)

(** Claim C6, as the code has it: latitude and longitude of the aggregate are
    the arithmetic mean of the values the records supply that are neither
    missing nor zero, and absent when there is no such value. *)
Theorem numeric_fields_mean providers :
  let records := Object_values providers in
  let location := Aggregated.location (aggregateProviderData providers) in
  same_number (Location.latitude location)
    (mean_of (supplied_numbers Provider.latitude records))
  /\ same_number (Location.longitude location)
       (mean_of (supplied_numbers Provider.longitude records)).
Proof.
  intros records location. subst location.
  rewrite aggregateProviderData_fields. fold records. simpl.
  split; apply getAverage_mean.
Qed.

(** A latitude of 0 is left out of the average: 0 and 10 give 10, not 5. *)
Lemma zero_latitude_left_out :
  ~ same_number
      (Location.latitude (Aggregated.location (aggregateProviderData two_records)))
      (mean_of (non_null_numbers Provider.latitude (Object_values two_records))).
Proof. vm_compute. discriminate. Qed.

(** ** The cache *)

(** A call that went to the providers and returned leaves its envelope in the
    cache, stamped with the time of the store. *)
Lemma returned_run w this ip options e :
  fetch_path w this ip options ->
  result (getComprehensiveIPInfo w this ip options) = Return e ->
  getComprehensiveIPInfo w this ip options
  = mkRun (Return e)
      (addToHistory (cacheResults this (now_store w) ip e) (now_history w) ip e)
      (dispatched options).
Proof.
  intros Hp Hr. pose proof (returned_not_detailed w this ip options e Hp Hr) as Hd.
  rewrite (fan_out w this ip options Hp Hd) in *. simpl in Hr. now injection Hr as <-.
Qed.



(** ** Invalid keys *)

(** Claim C8: a key that fails the format validation, such as 999.999.1.1,
    makes the call throw the invalid-format error; no adapter is invoked, no
    envelope is produced and the service object is unchanged. *)
Theorem invalid_key_rejected w this ip options :
  isValidIP ip = false ->
  let run := getComprehensiveIPInfo w this ip options in
  result run = Throw InvalidIPAddressFormat
  /\ invoked run = []
  /\ after run = this
  /\ isValidIP "999.999.1.1" = false.
Proof.
  intros Hv run. subst run. rewrite (invalid_key w this ip options Hv).
  repeat split.
Qed.

Lemma invalid_key_rejected_witness :
  let run := getComprehensiveIPInfo (world_up 0) constructor "999.999.1.1" detailed in
  result run = Throw InvalidIPAddressFormat
  /\ invoked run = []
  /\ after run = constructor
  /\ isValidIP "999.999.1.1" = false.
Proof.
  apply (invalid_key_rejected (world_up 0) constructor "999.999.1.1" detailed).
  reflexivity.
Defined.

(** ** The cache key *)

Lemma basic_only_tags w ip options :
  truthy (Options.includeThreatIntel options) = false ->
  forall tag,
    In tag (map fst (fulfilled_records (map (fun a => invoke w a ip) (dispatched options)))) ->
    tag = "ipapi" \/ tag = "ipinfo".
Proof.
  intros Ht tag Hin. apply (fulfilled_tags w ip) in Hin.
  unfold dispatched in Hin. rewrite Ht in Hin.
  destruct (not_false (Options.includeBasic options)); simpl in Hin; intuition.
Qed.

(** Claim C9: the cache is keyed by the IP alone.  A fresh entry answers a
    call without [forceRefresh] whatever its include options, and after a
    call that went to the providers and returned, a second call for the same
    IP within the 24 hours returns the first call's envelope and invokes no
    adapter, also when it asks for threat intelligence that the first call
    did not: the envelope then has no threat-intelligence record. *)
Theorem cache_keyed_by_ip_alone w1 w2 this ip o1 o2 e :
  fetch_path w1 this ip o1 ->
  result (getComprehensiveIPInfo w1 this ip o1) = Return e ->
  truthy (Options.forceRefresh o2) = false ->
  (now_lookup w2 - now_store w1 < cacheExpiry)%Z ->
  let run1 := getComprehensiveIPInfo w1 this ip o1 in
  getComprehensiveIPInfo w2 (after run1) ip o2 = mkRun (Return e) (after run1) []
  /\ (truthy (Options.includeThreatIntel o1) = false ->
      ~ In "threat_intel" (Object_keys (Results.providers e))
      /\ ~ In "shodan" (Object_keys (Results.providers e)))
  /\ (forall service cached,
        getFromCache service (now_lookup w2) ip = Some cached ->
        getComprehensiveIPInfo w2 service ip o2 = mkRun (Return cached) service []).
Proof.
  intros Hp Hr Hf Hin run1.
  pose proof (returned_valid w1 this ip o1 e Hr) as Hv.
  pose proof (returned_not_detailed w1 this ip o1 e Hp Hr) as Hd.
  pose proof (returned_run w1 this ip o1 e Hp Hr) as E1.
  subst run1. rewrite E1. cbn [after]. split; [|split].
  - apply cache_hit; [assumption | | assumption].
    rewrite getFromCache_stored.
    destruct (Z.ltb_spec (now_lookup w2 - now_store w1) cacheExpiry); [reflexivity | lia].
  - intros Ht. rewrite (fan_out w1 this ip o1 Hp Hd) in Hr. simpl in Hr.
    injection Hr as <-. unfold envelope. cbn [Results.providers].
    split; intros Hk;
      apply (Permutation_in _ (Object_keys_perm _)) in Hk;
      apply (basic_only_tags w1 ip o1 Ht) in Hk; destruct Hk; discriminate.
  - intros service cached Hc. now apply cache_hit.
Qed.

Lemma cache_keyed_by_ip_alone_witness :
  let run1 := getComprehensiveIPInfo (world_up 0) constructor sample_ip basic_only in
  getComprehensiveIPInfo (world_up 1000) (after run1) sample_ip with_threat_intel
  = mkRun (Return sample_envelope) (after run1) []
  /\ ~ In "threat_intel" (Object_keys (Results.providers sample_envelope)).
Proof.
  intros run1.
  destruct (cache_keyed_by_ip_alone (world_up 0) (world_up 1000) constructor sample_ip
              basic_only with_threat_intel sample_envelope) as (H1 & H2 & _).
  - split; [reflexivity | left; reflexivity].
  - reflexivity.
  - reflexivity.
  - reflexivity.
  - split; [exact H1 | apply H2; reflexivity].
Defined.

(** ** IPv6 literals *)

(** Claim C10: the accepted keys are the dotted quads with octets 0-255 and
    the literals of eight colon-separated groups of one to four hexadecimal
    digits.  A literal that uses the [::] compression, such as ::1 or
    2001:db8::1, is rejected and makes the call throw; every a.b.c.d with
    numbers up to 255 is accepted. *)
Theorem ipv6_only_fully_expanded ip :
  (isValidIP ip = true <-> dotted_quad ip \/ eight_groups ip)
  /\ (compressed ip ->
      isValidIP ip = false
      /\ forall w this options,
           result (getComprehensiveIPInfo w this ip options) = Throw InvalidIPAddressFormat)
  /\ isValidIP "::1" = false
  /\ isValidIP "2001:db8::1" = false
  /\ (forall a b c d,
        (a <= 255)%nat -> (b <= 255)%nat -> (c <= 255)%nat -> (d <= 255)%nat ->
        isValidIP (dotted a b c d) = true).
Proof.
  split; [apply isValidIP_shape|]. split.
  - intros Hc. pose proof (compressed_invalid ip Hc) as Hv. split; [assumption|].
    intros w this options. now rewrite (invalid_key w this ip options Hv).
  - split; [reflexivity|]. split; [reflexivity|]. apply dotted_valid.
Qed.

Lemma ipv6_only_fully_expanded_witness :
  isValidIP "2001:db8::1" = false
  /\ result (getComprehensiveIPInfo (world_up 0) constructor "2001:db8::1" Options.unset)
     = Throw InvalidIPAddressFormat
  /\ isValidIP (dotted 192 168 0 255) = true.
Proof.
  destruct (ipv6_only_fully_expanded "2001:db8::1") as (_ & Hc & _ & _ & Hd).
  destruct Hc as [Hv Ht]; [exists "2001:db8", "1"; reflexivity|].
  split; [exact Hv|]. split; [apply Ht|].
  apply Hd; lia.
Defined.

(** * The rest of the service *)

(** ** The four ways a call can go *)

Lemma call_cases w this ip options :
  let run := getComprehensiveIPInfo w this ip options in
  (isValidIP ip = false /\ run = mkRun (Throw InvalidIPAddressFormat) this [])
  \/ (exists cached,
        isValidIP ip = true
        /\ getFromCache this (now_lookup w) ip = Some cached
        /\ run = mkRun (Return cached) this [])
  \/ (fetch_path w this ip options
      /\ truthy (Options.includeDetailed options) = true
      /\ result run = Throw (NotAFunction "fetchFromMaxMind")
      /\ after run = this)
  \/ (fetch_path w this ip options
      /\ truthy (Options.includeDetailed options) = false
      /\ let e := envelope w ip (map (fun a => invoke w a ip) (dispatched options)) in
         run = mkRun (Return e)
                 (addToHistory (cacheResults this (now_store w) ip e) (now_history w) ip e)
                 (dispatched options)).
Proof.
  intros run. subst run.
  destruct (isValidIP ip) eqn:Hv.
  2:{ left. split; [reflexivity | now apply invalid_key]. }
  right.
  destruct (truthy (Options.forceRefresh options)) eqn:Hf.
  - right. assert (Hp : fetch_path w this ip options) by (split; [assumption | now right]).
    destruct (truthy (Options.includeDetailed options)) eqn:Hd.
    + left. rewrite (fan_out_detailed w this ip options Hp Hd). split; [exact Hp|]. now repeat split.
    + right. split; [exact Hp|]. split; [reflexivity|]. now apply fan_out.
  - destruct (getFromCache this (now_lookup w) ip) as [cached|] eqn:Hc.
    + left. exists cached. repeat split; try assumption. now apply cache_hit.
    + right. assert (Hp : fetch_path w this ip options) by (split; [assumption | now left]).
      destruct (truthy (Options.includeDetailed options)) eqn:Hd.
      * left. rewrite (fan_out_detailed w this ip options Hp Hd). split; [exact Hp|]. now repeat split.
      * right. split; [exact Hp|]. split; [reflexivity|]. now apply fan_out.
Qed.

(** ** Cache writes and reads *)

(** X1. What [cacheResults] stores under an IP, [getFromCache] gives back for
    that IP as long as less than 24 hours have passed since the store, and no
    longer afterwards; lookups of every other IP and the request history are
    unaffected. *)
Theorem cache_round_trip this stored ip data :
  (forall now, (now - stored < cacheExpiry)%Z ->
     getFromCache (cacheResults this stored ip data) now ip = Some data)
  /\ (forall now, (cacheExpiry <= now - stored)%Z ->
        getFromCache (cacheResults this stored ip data) now ip = None)
  /\ (forall now other, other <> ip ->
        getFromCache (cacheResults this stored ip data) now other
        = getFromCache this now other)
  /\ requestHistory (cacheResults this stored ip data) = requestHistory this.
Proof.
  unfold getFromCache, cacheResults. simpl. repeat split.
  - intros now H. rewrite lookup_insert_eq. simpl.
    destruct (Z.ltb_spec (now - stored) cacheExpiry); [reflexivity | lia].
  - intros now H. rewrite lookup_insert_eq. simpl.
    destruct (Z.ltb_spec (now - stored) cacheExpiry); [lia | reflexivity].
  - intros now other H. now rewrite lookup_insert_ne.
Qed.

Lemma cache_round_trip_witness :
  getFromCache (cacheResults constructor 0 sample_ip sample_envelope) 1000 sample_ip
  = Some sample_envelope
  /\ getFromCache (cacheResults constructor 0 sample_ip sample_envelope) 86400000 sample_ip
     = None
  /\ getFromCache (cacheResults constructor 0 sample_ip sample_envelope) 1000 "1.1.1.1"
     = getFromCache constructor 1000 "1.1.1.1".
Proof.
  destruct (cache_round_trip constructor 0 sample_ip sample_envelope) as (H1 & H2 & H3 & _).
  split; [apply H1; reflexivity|]. split; [apply H2; discriminate|].
  apply H3. discriminate.
Defined.

Lemma after_cache w this ip options :
  let run := getComprehensiveIPInfo w this ip options in
  after run = this
  \/ exists e, after run
               = addToHistory (cacheResults this (now_store w) ip e) (now_history w) ip e
               /\ result run = Return e
               /\ fetch_path w this ip options
               /\ truthy (Options.includeDetailed options) = false
               /\ e = envelope w ip (map (fun a => invoke w a ip) (dispatched options)).
Proof.
  intros run. subst run.
  destruct (call_cases w this ip options) as [[_ E]|[(c & _ & _ & E)|[(_ & _ & _ & E)|(Hp & Hd & E)]]].
  - left. now rewrite E.
  - left. now rewrite E.
  - now left.
  - right. simpl in E. rewrite E.
    exists (envelope w ip (map (fun a => invoke w a ip) (dispatched options))).
    split; [reflexivity|]. split; [reflexivity|]. split; [exact Hp|].
    split; [exact Hd | reflexivity].
Qed.

(** X2. A call of [getComprehensiveIPInfo] changes the cache at most under
    its own IP: the entries of all other IPs are as before, no entry is ever
    removed, and the cache grows by at most one entry. *)
Theorem call_touches_own_key w this ip options :
  let run := getComprehensiveIPInfo w this ip options in
  (forall other, other <> ip -> cache (after run) !! other = cache this !! other)
  /\ (forall key, is_Some (cache this !! key) -> is_Some (cache (after run) !! key))
  /\ (size (cache this) <= size (cache (after run)) <= S (size (cache this)))%nat.
Proof.
  intros run. subst run.
  destruct (after_cache w this ip options) as [E|(e & E & _)]; rewrite E.
  - repeat split; auto; lia.
  - unfold addToHistory, cacheResults. cbn [cache]. repeat split.
    + intros other H. now rewrite lookup_insert_ne.
    + intros key H. destruct (decide (ip = key)) as [->|N].
      * rewrite lookup_insert_eq. eauto.
      * now rewrite lookup_insert_ne.
    + destruct (cache this !! ip) as [old|] eqn:L.
      * rewrite map_size_insert_Some by eauto. lia.
      * rewrite map_size_insert_None by assumption. lia.
    + destruct (cache this !! ip) as [old|] eqn:L.
      * rewrite map_size_insert_Some by eauto. lia.
      * rewrite map_size_insert_None by assumption. lia.
Qed.

Lemma call_touches_own_key_witness :
  cache (after (getComprehensiveIPInfo (world_up 0) constructor sample_ip Options.unset))
    !! "1.1.1.1" = None.
Proof.
  destruct (call_touches_own_key (world_up 0) constructor sample_ip Options.unset) as (H & _).
  rewrite H; [reflexivity | discriminate].
Defined.

(** X3. A call that throws leaves the service object as it was: nothing is
    cached, nothing is added to the request history, and the analytics are
    unchanged. *)
Theorem throwing_call_leaves_no_trace w this ip options cause :
  result (getComprehensiveIPInfo w this ip options) = Throw cause ->
  after (getComprehensiveIPInfo w this ip options) = this
  /\ getAnalytics (after (getComprehensiveIPInfo w this ip options)) = getAnalytics this.
Proof.
  intros H.
  destruct (after_cache w this ip options) as [E|(e & _ & E & _)].
  - now rewrite E.
  - rewrite E in H. discriminate.
Qed.

Lemma throwing_call_leaves_no_trace_witness :
  after (getComprehensiveIPInfo (world_up 0) constructor sample_ip detailed) = constructor
  /\ getAnalytics (after (getComprehensiveIPInfo (world_up 0) constructor sample_ip detailed))
     = getAnalytics constructor.
Proof.
  apply (throwing_call_leaves_no_trace (world_up 0) constructor sample_ip detailed
           (NotAFunction "fetchFromMaxMind")).
  reflexivity.
Defined.

(** ** The request history *)

Lemma firstn_full {A} (x : A) l n :
  (0 < n)%nat -> length l = n -> firstn n (x :: l) = x :: removelast l.
Proof.
  intros Hn <-. destruct l as [|y l]; [simpl in Hn; lia|].
  cbn [length firstn]. f_equal.
  rewrite (removelast_firstn_len (y :: l)). reflexivity.
Qed.

(** X5. [addToHistory] puts the new entry first.  Below 100 entries the
    older ones all stay; at 100 the oldest is dropped and the others keep
    their order; a history of at most 100 entries stays so.  The cache is not
    touched. *)
Theorem history_keeps_newest this now ip results :
  let entry := HistoryEntry.mk ip now (Object_keys (Results.providers results)) true in
  let history := requestHistory (addToHistory this now ip results) in
  ((length (requestHistory this) < maxHistorySize)%nat ->
     history = entry :: requestHistory this)
  /\ (length (requestHistory this) = maxHistorySize ->
      history = entry :: without_oldest (requestHistory this))
  /\ ((length (requestHistory this) <= maxHistorySize)%nat ->
      (length history <= maxHistorySize)%nat)
  /\ cache (addToHistory this now ip results) = cache this.
Proof.
  intros entry history. subst entry history. unfold addToHistory. cbn [requestHistory cache].
  cbn [length]. repeat split.
  - intros H. destruct (Nat.ltb_spec maxHistorySize (S (length (requestHistory this))));
      [lia | reflexivity].
  - intros H. destruct (Nat.ltb_spec maxHistorySize (S (length (requestHistory this))));
      [|lia].
    unfold without_oldest. apply firstn_full; [unfold maxHistorySize; lia | assumption].
  - intros H. destruct (Nat.ltb_spec maxHistorySize (S (length (requestHistory this)))).
    + rewrite length_firstn. lia.
    + cbn [length]. lia.
Qed.

Lemma history_keeps_newest_witness :
  requestHistory (addToHistory constructor 5 sample_ip sample_envelope)
  = [HistoryEntry.mk sample_ip 5 ["ipapi"; "ipinfo"] true]
  /\ (length (requestHistory
        (addToHistory
           (mkService ∅ (repeat (HistoryEntry.mk "1.1.1.1" 0 [] true) 100))
           5 sample_ip sample_envelope)) <= maxHistorySize)%nat.
Proof.
  destruct (history_keeps_newest constructor 5 sample_ip sample_envelope)
    as (Hnew & _ & _ & _).
  destruct (history_keeps_newest
              (mkService ∅ (repeat (HistoryEntry.mk "1.1.1.1" 0 [] true) 100))
              5 sample_ip sample_envelope) as (_ & _ & Hfull & _).
  split.
  - rewrite Hnew; [reflexivity | unfold maxHistorySize; simpl; lia].
  - apply Hfull. unfold maxHistorySize. simpl. lia.
Defined.

(** ** Envelopes *)

Lemma settled_accounted settled : forall index,
  (length (fulfilled_records settled) + length (rejected_errors index settled)
   = length settled)%nat.
Proof.
  induction settled as [|[tag data|message] settled IH]; intros index; simpl;
    [reflexivity | rewrite IH; reflexivity |].
  rewrite <- (IH (S index)). lia.
Qed.

Lemma dispatched_length options : (length (dispatched options) <= 4)%nat.
Proof.
  unfold dispatched.
  destruct (not_false (Options.includeBasic options)),
    (truthy (Options.includeThreatIntel options)); simpl; lia.
Qed.

Lemma dispatched_known options : incl (map provider_tag (dispatched options)) known_tags.
Proof.
  unfold dispatched, known_tags.
  destruct (not_false (Options.includeBasic options)),
    (truthy (Options.includeThreatIntel options)); simpl;
    intros k Hk; simpl in *; tauto.
Qed.

Lemma envelope_consistent w ip options :
  consistent ip (envelope w ip (map (fun a => invoke w a ip) (dispatched options))).
Proof.
  unfold consistent, envelope. cbn [Results.ip Results.aggregated Results.confidence
    Results.threats Results.services Results.providers Results.errors].
  repeat split.
  - intros k Hk.
    apply (Permutation_in _ (Object_keys_perm _)) in Hk.
    apply (fulfilled_tags w ip) in Hk. now apply (dispatched_known options).
  - rewrite settled_accounted, length_map. apply dispatched_length.
Qed.

Lemma recorded_after_store this stored ip data history h :
  recorded this h ->
  recorded (mkService (<[ip := CacheEntry.mk stored data]> (cache this)) history) h.
Proof.
  intros (Hs & Hv & Hc). repeat split; try assumption. cbn [cache].
  destruct (decide (ip = HistoryEntry.ip h)) as [<-|N].
  - rewrite lookup_insert_eq. eauto.
  - now rewrite lookup_insert_ne.
Qed.

Lemma Forall_firstn {A} (P : A -> Prop) n l : Forall P l -> Forall P (firstn n l).
Proof.
  intros H. revert n. induction H as [|x l Hx _ IH]; intros [|n]; simpl;
    constructor; auto.
Qed.

Lemma invariant_step w this ip options :
  service_invariant this ->
  service_invariant (after (getComprehensiveIPInfo w this ip options)).
Proof.
  intros (Hlen & Hrec & Hcache).
  destruct (after_cache w this ip options) as [E|(e & E & _ & [Hv _] & _ & He)];
    rewrite E; [exact (conj Hlen (conj Hrec Hcache))|].
  unfold service_invariant, addToHistory, cacheResults. cbn [cache requestHistory].
  set (entry := HistoryEntry.mk ip (now_history w) (Object_keys (Results.providers e)) true).
  set (store := <[ip := CacheEntry.mk (now_store w) e]> (cache this)).
  assert (Hall : Forall (recorded (mkService store (requestHistory this)))
                   (entry :: requestHistory this)).
  { constructor.
    - repeat split; [exact Hv|]. cbn [cache HistoryEntry.ip]. unfold store, entry.
      cbn [HistoryEntry.ip]. rewrite lookup_insert_eq. eauto.
    - eapply List.Forall_impl; [|exact Hrec]. intros h Hh.
      now apply recorded_after_store. }
  split; [|split].
  - destruct (Nat.ltb_spec maxHistorySize (length (entry :: requestHistory this))).
    + rewrite length_firstn. lia.
    + assumption.
  - destruct (Nat.ltb_spec maxHistorySize (length (entry :: requestHistory this)));
      [apply Forall_firstn|]; exact Hall.
  - intros key data. unfold store.
    destruct (decide (ip = key)) as [<-|N].
    + rewrite lookup_insert_eq. intros [= <-]. cbn [CacheEntry.data].
      split; [exact Hv|]. rewrite He. apply envelope_consistent.
    + rewrite lookup_insert_ne by assumption. apply Hcache.
Qed.

Lemma reachable_invariant this : reachable this -> service_invariant this.
Proof.
  induction 1 as [|w this ip options _ IH].
  - split; [unfold maxHistorySize; simpl; lia|]. split; [constructor|].
    intros key entry H. unfold constructor in H. cbn [cache] in H.
    rewrite lookup_empty in H. discriminate.
  - now apply invariant_step.
Qed.

Lemma all_succeeded history :
  Forall (fun h => HistoryEntry.success h = true) history ->
  List.filter HistoryEntry.success history = history.
Proof.
  induction 1 as [|h history Hh _ IH]; simpl; [reflexivity|]. now rewrite Hh, IH.
Qed.

(** X4. On a service object obtained from the constructor by calls of
    [getComprehensiveIPInfo], the history holds at most 100 entries, each one
    a success for a valid IP that is still in the cache; [getAnalytics] then
    reports a success rate of 1, or [NaN] while the history is empty. *)
Theorem reachable_history this :
  reachable this ->
  let analytics := getAnalytics this in
  (Analytics.totalRequests analytics <= 100)%nat
  /\ Forall (recorded this) (requestHistory this)
  /\ match Analytics.successRate analytics with
     | None => requestHistory this = []
     | Some rate => rate == 1 /\ requestHistory this <> []
     end.
Proof.
  intros Hr analytics. subst analytics.
  destruct (reachable_invariant this Hr) as (Hlen & Hrec & _).
  unfold getAnalytics. cbn [Analytics.totalRequests Analytics.successRate].
  split; [exact Hlen|]. split; [exact Hrec|].
  rewrite all_succeeded.
  2:{ eapply List.Forall_impl; [|exact Hrec]. now intros h (Hs & _). }
  destruct (requestHistory this) as [|h history]; [reflexivity|].
  cbn [length Nat.eqb]. split; [|discriminate].
  apply Qmult_inv_r. change 0%Q with (inject_Z 0). rewrite inject_Z_injective. lia.
Qed.

Lemma reachable_history_witness :
  let this := after (getComprehensiveIPInfo (world_up 0) constructor sample_ip Options.unset) in
  (Analytics.totalRequests (getAnalytics this) <= 100)%nat
  /\ Forall (recorded this) (requestHistory this)
  /\ match Analytics.successRate (getAnalytics this) with
     | None => requestHistory this = []
     | Some rate => rate == 1 /\ requestHistory this <> []
     end.
Proof.
  apply (reachable_history
           (after (getComprehensiveIPInfo (world_up 0) constructor sample_ip Options.unset))).
  apply reachable_call, reachable_new.
Defined.

(** X7. On such a service object every envelope a call returns, fresh or
    from the cache, is for the requested IP, which is valid; its aggregate,
    confidence, threats and services are the ones computed from its provider
    records; its records and errors account for at most four adapters; and it
    never holds an [ipgeolocation] record. *)
Theorem reachable_envelopes w this ip options e :
  reachable this ->
  result (getComprehensiveIPInfo w this ip options) = Return e ->
  consistent ip e
  /\ isValidIP ip = true
  /\ ~ In "ipgeolocation" (Object_keys (Results.providers e)).
Proof.
  intros Hr He.
  destruct (reachable_invariant this Hr) as (_ & _ & Hcache).
  assert (Hc : consistent ip e /\ isValidIP ip = true).
  { destruct (call_cases w this ip options)
      as [[_ E]|[(c & Hv & Hc & E)|[(_ & _ & E & _)|(Hp & Hd & E)]]].
    - rewrite E in He. discriminate.
    - rewrite E in He. injection He as <-.
      unfold getFromCache in Hc. destruct (cache this !! ip) as [entry|] eqn:L; [|discriminate].
      destruct (_ <? _)%Z; [|discriminate]. injection Hc as <-.
      split; [|exact Hv]. now apply (Hcache ip entry).
    - rewrite E in He. discriminate.
    - simpl in E. rewrite E in He. injection He as <-.
      split; [apply envelope_consistent | apply Hp]. }
  destruct Hc as [Hc Hv]. split; [exact Hc|]. split; [exact Hv|].
  destruct Hc as (_ & _ & _ & _ & _ & Hk & _).
  intros Hin. apply Hk in Hin. unfold known_tags in Hin. simpl in Hin.
  intuition discriminate.
Qed.

Lemma reachable_envelopes_witness :
  consistent sample_ip sample_envelope
  /\ isValidIP sample_ip = true
  /\ ~ In "ipgeolocation" (Object_keys (Results.providers sample_envelope)).
Proof.
  apply (reachable_envelopes (world_up 0) constructor sample_ip Options.unset sample_envelope).
  - apply reachable_new.
  - reflexivity.
Defined.



(** ** Threats and services *)

Lemma threats_of_length p :
  length (threats_of p)
  = ((if Provider.isProxy p then 1 else 0)
     + (if Provider.isHosting p then 1 else 0)
     + (if has_vulnerabilities p then 1 else 0))%nat.
Proof.
  unfold threats_of, has_vulnerabilities.
  destruct (Provider.isProxy p), (Provider.isHosting p), (Provider.vulnerabilities p);
    reflexivity.
Qed.

Lemma count_records_cons flag p records :
  count_records flag (p :: records)
  = ((if flag p then 1 else 0) + count_records flag records)%nat.
Proof. unfold count_records. simpl. now destruct (flag p). Qed.

Lemma threats_length records :
  length (concat (map threats_of records))
  = (count_records Provider.isProxy records
     + count_records Provider.isHosting records
     + count_records has_vulnerabilities records)%nat.
Proof.
  induction records as [|p records IH]; [reflexivity|].
  cbn [map concat]. rewrite length_app, IH, threats_of_length, !count_records_cons. lia.
Qed.

Lemma threats_of_kinds p t :
  In t (threats_of p) ->
  (Threat.type t = "proxy" /\ Threat.severity t = "medium" /\ Provider.isProxy p = true)
  \/ (Threat.type t = "hosting" /\ Threat.severity t = "low" /\ Provider.isHosting p = true)
  \/ (Threat.type t = "vulnerabilities" /\ Threat.severity t = "high"
      /\ Threat.details t = Some (Provider.vulnerabilities p)
      /\ Provider.vulnerabilities p <> []).
Proof.
  unfold threats_of. intros H.
  apply in_app_or in H as [H|H].
  - destruct (Provider.isProxy p); [|contradiction].
    destruct H as [<-|[]]. left. now repeat split.
  - apply in_app_or in H as [H|H].
    + destruct (Provider.isHosting p); [|contradiction].
      destruct H as [<-|[]]. right. left. now repeat split.
    + destruct (Provider.vulnerabilities p) as [|v vs] eqn:E; [contradiction|].
      destruct H as [<-|[]]. right. right. now repeat split.
Qed.

(** X10. [analyzeThreatData] reports one threat for each proxy flag, each
    hosting flag and each non-empty vulnerability list of the records, without
    merging across providers; it reports none exactly when no record has any
    of them; a proxy threat has severity medium, a hosting threat low, a
    vulnerabilities threat high with the record's list as details. *)
Theorem threats_per_flag providers :
  let records := Object_values providers in
  let threats := analyzeThreatData providers in
  length threats
  = (count_records Provider.isProxy records
     + count_records Provider.isHosting records
     + count_records has_vulnerabilities records)%nat
  /\ (threats = [] <->
      Forall (fun p => Provider.isProxy p = false /\ Provider.isHosting p = false
                       /\ Provider.vulnerabilities p = []) records)
  /\ (forall t, In t threats ->
        exists p, In p records
          /\ ((Threat.type t = "proxy" /\ Threat.severity t = "medium"
               /\ Provider.isProxy p = true)
              \/ (Threat.type t = "hosting" /\ Threat.severity t = "low"
                  /\ Provider.isHosting p = true)
              \/ (Threat.type t = "vulnerabilities" /\ Threat.severity t = "high"
                  /\ Threat.details t = Some (Provider.vulnerabilities p)
                  /\ Provider.vulnerabilities p <> []))).
Proof.
  intros records threats. subst threats. unfold analyzeThreatData. fold records.
  split; [apply threats_length|]. split.
  - clearbody records. induction records as [|p records IH]; [now split|].
    cbn [map concat]. split.
    + intros H. apply app_eq_nil in H as [Hp Hr]. constructor; [|now apply IH].
      unfold threats_of in Hp.
      destruct (Provider.isProxy p); [discriminate|].
      destruct (Provider.isHosting p); [discriminate|].
      destruct (Provider.vulnerabilities p); [now repeat split | discriminate].
    + intros H. inversion H as [|? ? (H1 & H2 & H3) Hr]; subst.
      rewrite (proj2 IH Hr). unfold threats_of. now rewrite H1, H2, H3.
  - intros t Ht. apply in_concat in Ht as (ts & Hts & Ht).
    apply in_map_iff in Hts as (p & <- & Hp).
    exists p. split; [exact Hp | now apply threats_of_kinds].
Qed.

Lemma services_length records :
  length (concat (map services_of records)) = total listed_services records.
Proof.
  induction records as [|p records IH]; [reflexivity|].
  cbn [map concat total]. rewrite length_app, IH. f_equal.
  unfold services_of, listed_services. now rewrite length_app, length_map.
Qed.

(** X11. [extractServiceInfo] returns as many entries as the records list
    services and ports together, without merging: every listed service is
    returned as it is, and every port as a port-scan entry. *)
Theorem services_flattened providers :
  let records := Object_values providers in
  let services := extractServiceInfo providers in
  length services = total listed_services records
  /\ (forall p port,
        In p records -> In port (default [] (Provider.ports p)) ->
        In (port_scan port) services)
  /\ (forall p s,
        In p records -> In s (default [] (Provider.services p)) -> In s services).
Proof.
  intros records services. subst services. unfold extractServiceInfo. fold records.
  split; [apply services_length|]. split.
  - intros p port Hp Hport. apply in_concat. exists (services_of p). split.
    + now apply in_map.
    + unfold services_of. apply in_or_app. right. now apply in_map.
  - intros p s Hp Hs. apply in_concat. exists (services_of p). split.
    + now apply in_map.
    + unfold services_of. apply in_or_app. now left.
Qed.

Lemma services_flattened_witness :
  In (port_scan 22) (extractServiceInfo [("shodan", flagged_record)]).
Proof.
  destruct (services_flattened [("shodan", flagged_record)]) as (_ & H & _).
  apply (H flagged_record 22%Z); simpl; auto.
Defined.

(** ** The threat level *)

Lemma score_fold threats : forall score,
  fold_left (fun score threat => score + severity_score (Threat.severity threat))%nat
    threats score
  = (score + threat_score threats)%nat.
Proof.
  unfold threat_score.
  induction threats as [|t threats IH]; intros score; simpl; [lia|].
  rewrite IH, (IH (severity_score _)). lia.
Qed.

Lemma threat_score_app a b :
  threat_score (a ++ b) = (threat_score a + threat_score b)%nat.
Proof. unfold threat_score at 1. rewrite fold_left_app, !score_fold. simpl. lia. Qed.

Lemma threat_score_cons t threats :
  threat_score (t :: threats)
  = (severity_score (Threat.severity t) + threat_score threats)%nat.
Proof. change (t :: threats) with ([t] ++ threats). rewrite threat_score_app. reflexivity. Qed.

Lemma level_of_score threats :
  level_rank (calculateThreatLevel threats)
  = if (6 <=? threat_score threats)%nat then 2%nat
    else if (3 <=? threat_score threats)%nat then 1%nat else 0%nat.
Proof.
  destruct threats as [|t threats]; [reflexivity|].
  unfold calculateThreatLevel.
  destruct (6 <=? threat_score (t :: threats))%nat; [reflexivity|].
  destruct (3 <=? threat_score (t :: threats))%nat; reflexivity.
Qed.

Lemma severity_score_pos s : (1 <= severity_score s <= 3)%nat.
Proof.
  unfold severity_score. destruct (String.eqb s "high"); [lia|].
  destruct (String.eqb s "medium"); lia.
Qed.

(** X12. [calculateThreatLevel] answers Low, Medium or High; adding threats
    never lowers the level; the level is High exactly from a score of 6 on;
    and the score lies between the number of threats and three times it. *)
Theorem threat_level_monotone threats more :
  (calculateThreatLevel threats = "Low" \/ calculateThreatLevel threats = "Medium"
   \/ calculateThreatLevel threats = "High")
  /\ (level_rank (calculateThreatLevel threats)
      <= level_rank (calculateThreatLevel (threats ++ more)))%nat
  /\ (calculateThreatLevel threats = "High" <-> (6 <= threat_score threats)%nat)
  /\ (length threats <= threat_score threats <= 3 * length threats)%nat.
Proof.
  split; [|split; [|split]].
  - destruct threats as [|t threats]; [now left|]. unfold calculateThreatLevel.
    destruct (6 <=? _)%nat; [now right; right|].
    destruct (3 <=? _)%nat; [now right; left | now left].
  - rewrite !level_of_score, threat_score_app.
    destruct (Nat.leb_spec 6 (threat_score threats)),
      (Nat.leb_spec 3 (threat_score threats)),
      (Nat.leb_spec 6 (threat_score threats + threat_score more)),
      (Nat.leb_spec 3 (threat_score threats + threat_score more)); lia.
  - destruct threats as [|t threats].
    + split; [discriminate | unfold threat_score; simpl; lia].
    + unfold calculateThreatLevel.
      destruct (Nat.leb_spec 6 (threat_score (t :: threats))).
      * tauto.
      * split; [|lia]. destruct (3 <=? _)%nat; discriminate.
  - induction threats as [|t threats IH]; [unfold threat_score; simpl; lia|].
    rewrite threat_score_cons. cbn [length].
    pose proof (severity_score_pos (Threat.severity t)). lia.
Qed.

Lemma threats_of_score p :
  threat_score (threats_of p)
  = ((if Provider.isProxy p then 2 else 0)
     + (if Provider.isHosting p then 1 else 0)
     + (if has_vulnerabilities p then 3 else 0))%nat.
Proof.
  unfold threats_of, has_vulnerabilities.
  destruct (Provider.isProxy p), (Provider.isHosting p), (Provider.vulnerabilities p);
    reflexivity.
Qed.

(** X13. On the threats [analyzeThreatData] derives, the score of
    [calculateThreatLevel] is twice the number of proxy flags plus the number
    of hosting flags plus three times the number of records with
    vulnerabilities, and the level is High from 6, Medium from 3, else Low. *)
Theorem threat_level_of_flags providers :
  let records := Object_values providers in
  let score := (2 * count_records Provider.isProxy records
                + count_records Provider.isHosting records
                + 3 * count_records has_vulnerabilities records)%nat in
  threat_score (analyzeThreatData providers) = score
  /\ calculateThreatLevel (analyzeThreatData providers)
     = if (6 <=? score)%nat then "High"
       else if (3 <=? score)%nat then "Medium" else "Low".
Proof.
  intros records score.
  assert (E : threat_score (analyzeThreatData providers) = score).
  { subst score. unfold analyzeThreatData. fold records. clearbody records.
    induction records as [|p records IH]; [reflexivity|].
    cbn [map concat]. rewrite threat_score_app, IH, threats_of_score, !count_records_cons.
    destruct (Provider.isProxy p), (Provider.isHosting p), (has_vulnerabilities p); lia. }
  split; [exact E|].
  destruct (analyzeThreatData providers) as [|t threats] eqn:A.
  - rewrite <- E. reflexivity.
  - unfold calculateThreatLevel. now rewrite E.
Qed.

Lemma threats_per_flag_witness :
  length (analyzeThreatData [("shodan", flagged_record)]) = 3%nat
  /\ analyzeThreatData two_records = [].
Proof.
  destruct (threats_per_flag [("shodan", flagged_record)]) as (H & _).
  destruct (threats_per_flag two_records) as (_ & H' & _).
  split; [exact H|]. apply H'. repeat constructor.
Defined.

Lemma threat_level_monotone_witness :
  (level_rank (calculateThreatLevel (analyzeThreatData two_records))
   <= level_rank (calculateThreatLevel
                    (analyzeThreatData two_records
                     ++ analyzeThreatData [("shodan", flagged_record)])))%nat
  /\ calculateThreatLevel (analyzeThreatData [("shodan", flagged_record)]) = "High".
Proof.
  destruct (threat_level_monotone (analyzeThreatData two_records)
              (analyzeThreatData [("shodan", flagged_record)])) as (_ & H & _).
  destruct (threat_level_monotone (analyzeThreatData [("shodan", flagged_record)]) [])
    as (_ & _ & H' & _).
  split; [exact H|]. apply H'. vm_compute. lia.
Defined.

(** ** The caller *)

(** X14. When the enhanced service is loaded, [IPBanTester.getIPInfo] answers
    every IP, valid or not and whatever the providers reply, with the record
    of Unknown fields: it constructs a new service, whose cache is empty, and
    calls it with [includeDetailed], so the call always throws. *)
Theorem getIPInfo_always_unknown
    (fixed4_degrees degrees number_text : Q -> string) (percent : option Q -> string)
    (w : World) (client : string -> ClientData.t + string) (ip : string) :
  getIPInfo fixed4_degrees degrees number_text percent true w client ip = unknown_info ip
  /\ exists cause,
       result (getComprehensiveIPInfo w constructor ip detailed) = Throw cause.
Proof.
  unfold getIPInfo.
  destruct (call_cases w constructor ip detailed)
    as [[_ E]|[(c & _ & Hc & _)|[(_ & _ & E & _)|(_ & Hd & _)]]].
  - rewrite E. simpl. eauto.
  - unfold getFromCache, constructor in Hc. cbn [cache] in Hc.
    rewrite lookup_empty in Hc. discriminate.
  - rewrite E. eauto.
  - discriminate.
Qed.

(** ** Error labels *)

Lemma rejected_errors_In settled : forall index err,
  In err (rejected_errors index settled) <->
  exists i message,
    nth_error settled i = Some (rejected message)
    /\ err = ProviderError.mk (error_label (index + i)) message.
Proof.
  induction settled as [|[tag data|message] settled IH]; intros index err; simpl.
  - split; [contradiction|]. intros ([|i] & m & H & _); discriminate.
  - rewrite IH. split.
    + intros (i & m & H & ->). exists (S i), m. split; [exact H|].
      now rewrite Nat.add_succ_r.
    + intros ([|i] & m & H & ->); [discriminate|]. exists i, m. split; [exact H|].
      now rewrite Nat.add_succ_r.
  - rewrite IH. split.
    + intros [<-|(i & m & H & ->)].
      * exists 0%nat, message. split; [reflexivity|]. now rewrite Nat.add_0_r.
      * exists (S i), m. split; [exact H|]. now rewrite Nat.add_succ_r.
    + intros ([|i] & m & H & ->).
      * left. simpl in H. injection H as <-. now rewrite Nat.add_0_r.
      * right. exists i, m. split; [exact H|]. now rewrite Nat.add_succ_r.
Qed.

(** X8. In an envelope a call builds, the error entries are exactly the
    rejections of the dispatched adapters, each labelled [provider_i] with the
    position [i] of the adapter in the dispatch order and carrying the message
    of its error. *)
Theorem errors_labelled_by_position w this ip options e :
  fetch_path w this ip options ->
  result (getComprehensiveIPInfo w this ip options) = Return e ->
  forall err,
    In err (Results.errors e) <->
    exists index adapter message,
      nth_error (dispatched options) index = Some adapter
      /\ invoke w adapter ip = rejected message
      /\ err = ProviderError.mk (error_label index) message.
Proof.
  intros Hp He err.
  pose proof (returned_not_detailed w this ip options e Hp He) as Hd.
  rewrite (fan_out w this ip options Hp Hd) in He. simpl in He. injection He as <-.
  unfold envelope. cbn [Results.errors]. rewrite rejected_errors_In. split.
  - intros (i & m & H & ->). rewrite nth_error_map in H.
    destruct (nth_error (dispatched options) i) as [a|] eqn:N; [|discriminate].
    simpl in H. injection H as H. exists i, a, m. now repeat split.
  - intros (i & a & m & N & H & ->). exists i, m. split; [|reflexivity].
    rewrite nth_error_map, N. simpl. now rewrite H.
Qed.

Lemma errors_labelled_by_position_witness :
  In (ProviderError.mk "provider_1" "Failed to fetch") (Results.errors failed_envelope).
Proof.
  apply (errors_labelled_by_position (world_shodan_only 0) constructor sample_ip
           Options.unset failed_envelope);
    [split; [reflexivity | left; reflexivity] | reflexivity |].
  exists 1%nat, IPInfo, "Failed to fetch". repeat split.
Defined.

(** ** The placeholder provider *)





(** ** Majorities and averages *)







(** ** One record *)







(** ** Keys *)

(** X18. A key that [isValidIP] accepts has between 7 and 39 characters, all
    of them hexadecimal digits, dots or colons. *)
Theorem valid_key_bounds ip :
  isValidIP ip = true ->
  (7 <= String.length ip <= 39)%nat /\ all_chars key_char ip = true.
Proof.
  assert (A4 : forall c, (if alphabet ipv4Regex c then key_char c else true) = true).
  { apply ascii_check. vm_compute. reflexivity. }
  assert (A6 : forall c, (if alphabet ipv6Regex c then key_char c else true) = true).
  { apply ascii_check. vm_compute. reflexivity. }
  unfold isValidIP. rewrite orb_true_iff, !test_Matches, string_length_list.
  unfold all_chars. rewrite forallb_forall.
  intros [M|M]; pose proof (Matches_length _ _ M) as L; apply Matches_alphabet in M;
    rewrite List.Forall_forall in M.
  - change (min_len ipv4Regex) with 7%nat in L. change (max_len ipv4Regex) with 15%nat in L.
    split; [lia|]. intros c Hc. specialize (M c Hc). specialize (A4 c).
    now rewrite M in A4.
  - change (min_len ipv6Regex) with 15%nat in L. change (max_len ipv6Regex) with 39%nat in L.
    split; [lia|]. intros c Hc. specialize (M c Hc). specialize (A6 c).
    now rewrite M in A6.
Qed.

Lemma valid_key_bounds_witness :
  (7 <= String.length sample_ip <= 39)%nat /\ all_chars key_char sample_ip = true.
Proof. apply valid_key_bounds. reflexivity. Defined.

(** ** What a returning call records *)

Lemma known_tags_named : Forall (fun k => array_index k = None) known_tags.
Proof. repeat constructor. Qed.

Lemma envelope_keys w ip options :
  let e := envelope w ip (map (fun a => invoke w a ip) (dispatched options)) in
  Object_keys (Results.providers e) = map fst (Results.providers e).
Proof.
  intros e. unfold Object_keys. rewrite Object_entries_named; [reflexivity|].
  apply List.Forall_forall. intros k Hk.
  pose proof known_tags_named as N. rewrite List.Forall_forall in N. apply N.
  apply (dispatched_known options), (fulfilled_tags w ip). exact Hk.
Qed.

(** X19. A call that goes to the providers and returns stores its envelope
    under the IP with the time of the store, puts at the head of the history
    an entry with the IP, the time and the names of the providers that
    answered, in dispatch order, and raises the request count by one up to
    the limit of 100; the envelope carries the IP and the creation time. *)
Theorem returning_call_is_recorded w this ip options e :
  fetch_path w this ip options ->
  result (getComprehensiveIPInfo w this ip options) = Return e ->
  let run := getComprehensiveIPInfo w this ip options in
  cache (after run) !! ip = Some (CacheEntry.mk (now_store w) e)
  /\ hd_error (requestHistory (after run))
     = Some (HistoryEntry.mk ip (now_history w) (map fst (Results.providers e)) true)
  /\ Analytics.totalRequests (getAnalytics (after run))
     = Nat.min maxHistorySize (S (Analytics.totalRequests (getAnalytics this)))
  /\ Results.ip e = ip
  /\ Results.timestamp e = now_created w.
Proof.
  intros Hp He run. subst run.
  pose proof (returned_not_detailed w this ip options e Hp He) as Hd.
  pose proof (envelope_keys w ip options) as K. cbv zeta in K.
  rewrite (fan_out w this ip options Hp Hd) in *. cbn [result after] in *.
  injection He as <-.
  unfold getAnalytics, addToHistory, cacheResults.
  cbn [cache requestHistory Analytics.totalRequests]. rewrite K.
  split; [apply lookup_insert_eq|].
  set (entry := HistoryEntry.mk _ _ _ _).
  destruct (Nat.ltb_spec maxHistorySize (length (entry :: requestHistory this))) as [L|L].
  - split; [reflexivity|]. split; [|split; reflexivity].
    rewrite length_firstn. cbn [length] in *. lia.
  - split; [reflexivity|]. split; [|split; reflexivity].
    cbn [length] in *. lia.
Qed.

Lemma returning_call_is_recorded_witness :
  let run := getComprehensiveIPInfo (world_up 0) constructor sample_ip Options.unset in
  cache (after run) !! sample_ip = Some (CacheEntry.mk 0 sample_envelope)
  /\ hd_error (requestHistory (after run))
     = Some (HistoryEntry.mk sample_ip 0 ["ipapi"; "ipinfo"] true).
Proof.
  intros run.
  destruct (returning_call_is_recorded (world_up 0) constructor sample_ip Options.unset
              sample_envelope) as (H1 & H2 & _);
    [split; [reflexivity | left; reflexivity] | reflexivity |].
  split; [exact H1 | exact H2].
Defined.

(** ** A call that requests no provider *)

(** X20. With [includeBasic] false and no other provider group requested, a
    call on a valid IP invokes no adapter and still returns an envelope, with
    no record, no error, no aggregated field and the empty confidence object,
    and caches it for 24 hours. *)
Theorem nothing_requested_still_returns w this ip options :
  fetch_path w this ip options ->
  Options.includeBasic options = Some false ->
  truthy (Options.includeDetailed options) = false ->
  truthy (Options.includeThreatIntel options) = false ->
  let run := getComprehensiveIPInfo w this ip options in
  exists e,
    result run = Return e
    /\ invoked run = []
    /\ Results.providers e = [] /\ Results.errors e = []
    /\ Results.aggregated e = no_fields
    /\ Results.confidence e = Confidence.empty
    /\ forall later, (later - now_store w < cacheExpiry)%Z ->
         getFromCache (after run) later ip = Some e.
Proof.
  intros Hp Hb Hd Ht run. subst run.
  rewrite (fan_out w this ip options Hp Hd).
  assert (E : dispatched options = []).
  { unfold dispatched. now rewrite Hb, Ht. }
  rewrite E. cbn [map result invoked after].
  eexists. split; [reflexivity|]. repeat split.
  intros later Hl. rewrite getFromCache_stored.
  destruct (Z.ltb_spec (later - now_store w) cacheExpiry); [reflexivity | lia].
Qed.

Lemma nothing_requested_still_returns_witness :
  exists e,
    result (getComprehensiveIPInfo (world_up 0) constructor sample_ip nothing_requested)
    = Return e
    /\ invoked (getComprehensiveIPInfo (world_up 0) constructor sample_ip nothing_requested)
       = []
    /\ Results.providers e = [] /\ Results.errors e = [].
Proof.
  destruct (nothing_requested_still_returns (world_up 0) constructor sample_ip
              nothing_requested) as (e & H1 & H2 & H3 & H4 & _);
    [split; [reflexivity | left; reflexivity] | reflexivity | reflexivity | reflexivity |].
  exists e. repeat split; assumption.
Defined.
